(** * skylight: events, observers and clients

    A shallow embedding of the Go package [skylight] (observer.go and the
    client and event files) and the properties of its event life cycle and
    observer dispatch.

    Go pointers are addresses into finite stores ([gmap]); a nil pointer is
    [None].  Go maps are reference values: an event holds the address of its
    field map, and the map contents live in a store of their own, so that two
    names for one map see each other's writes.  *)

From Stdlib Require Import ZArith.
From stdpp Require Import gmap strings list fin_maps sorting pretty.

Local Open Scope Z_scope.

(** ** Levels *)

(** [type Level int], ranked by the [iota] declaration.  Levels are only
    compared, never computed with, so the integers are unbounded here. *)
Definition Level := Z.

Definition LevelNone : Level := 0.
Definition LevelTrace : Level := 1.
Definition LevelDebug : Level := 2.
Definition LevelInfo : Level := 3.
Definition LevelWarn : Level := 4.
Definition LevelError : Level := 5.
Definition LevelFatal : Level := 6.
Definition LevelPanic : Level := 7.

(** [func (l Level) String() string] *)
Definition Level_String (l : Level) : string :=
  if l =? LevelTrace then "trace"
  else if l =? LevelDebug then "debug"
  else if l =? LevelInfo then "info"
  else if l =? LevelWarn then "warn"
  else if l =? LevelError then "error"
  else if l =? LevelFatal then "fatal"
  else if l =? LevelPanic then "fatal"
  else if l =? LevelNone then ""
  else "".

(** ** Values and field maps *)

(** The values of Go's [any] that the package itself stores or that the
    examples below need. *)
Inductive any :=
| AnyNil
| AnyBool (b : bool)
| AnyInt (z : Z)
| AnyString (s : string)
| AnyError (msg : string).

Abbreviation addr := nat.

(** [type Fields map[string]any] *)
Abbreviation Fields := (gmap string any).

(** ** Events *)

Module Event.
Record t := mk {
  c : option addr;
  closed : bool;
  id : string;
  createdAt : Z;
  emittedAt : Z;
  level : Level;
  message : string;
  topic : string;
  parentID : string;
  fields : option addr
}.

(** The zero value [Event{}]. *)
Definition zero : t := mk None false "" 0 0 0 "" "" "" None.

Definition set_c (v : option addr) (e : t) : t :=
  mk v (closed e) (id e) (createdAt e) (emittedAt e) (level e) (message e)
     (topic e) (parentID e) (fields e).
Definition set_closed (v : bool) (e : t) : t :=
  mk (c e) v (id e) (createdAt e) (emittedAt e) (level e) (message e)
     (topic e) (parentID e) (fields e).
Definition set_id (v : string) (e : t) : t :=
  mk (c e) (closed e) v (createdAt e) (emittedAt e) (level e) (message e)
     (topic e) (parentID e) (fields e).
Definition set_createdAt (v : Z) (e : t) : t :=
  mk (c e) (closed e) (id e) v (emittedAt e) (level e) (message e)
     (topic e) (parentID e) (fields e).
Definition set_emittedAt (v : Z) (e : t) : t :=
  mk (c e) (closed e) (id e) (createdAt e) v (level e) (message e)
     (topic e) (parentID e) (fields e).
Definition set_level (v : Level) (e : t) : t :=
  mk (c e) (closed e) (id e) (createdAt e) (emittedAt e) v (message e)
     (topic e) (parentID e) (fields e).
Definition set_message (v : string) (e : t) : t :=
  mk (c e) (closed e) (id e) (createdAt e) (emittedAt e) (level e) v
     (topic e) (parentID e) (fields e).
Definition set_topic (v : string) (e : t) : t :=
  mk (c e) (closed e) (id e) (createdAt e) (emittedAt e) (level e) (message e)
     v (parentID e) (fields e).
Definition set_parentID (v : string) (e : t) : t :=
  mk (c e) (closed e) (id e) (createdAt e) (emittedAt e) (level e) (message e)
     (topic e) v (fields e).
Definition set_fields (v : option addr) (e : t) : t :=
  mk (c e) (closed e) (id e) (createdAt e) (emittedAt e) (level e) (message e)
     (topic e) (parentID e) v.
End Event.

Abbreviation Event := Event.t.

Global Instance Event_inhabited : Inhabited Event := populate Event.zero.

(** ** Memory *)

(** What the external log collaborator (logrus) is handed on one call. *)
Record Entry := mkEntry {
  entry_level : Level;
  entry_message : string;
  entry_data : Fields
}.

(** The part of the program state that events and observer handlers work on:
    the event store, the store of field maps, the contents of [eventPool],
    the number of identifiers and clock readings taken so far, and what has
    been forwarded to the external sink. *)
Record Mem := mkMem {
  events : gmap addr Event;
  maps : gmap addr Fields;
  eventPool : list addr;
  idCalls : nat;
  nowCalls : nat;
  sink : list Entry
}.

Definition set_events (f : gmap addr Event → gmap addr Event) (m : Mem) : Mem :=
  mkMem (f (events m)) (maps m) (eventPool m) (idCalls m) (nowCalls m) (sink m).
Definition set_maps (f : gmap addr Fields → gmap addr Fields) (m : Mem) : Mem :=
  mkMem (events m) (f (maps m)) (eventPool m) (idCalls m) (nowCalls m) (sink m).
Definition set_eventPool (f : list addr → list addr) (m : Mem) : Mem :=
  mkMem (events m) (maps m) (f (eventPool m)) (idCalls m) (nowCalls m) (sink m).
Definition set_idCalls (f : nat → nat) (m : Mem) : Mem :=
  mkMem (events m) (maps m) (eventPool m) (f (idCalls m)) (nowCalls m) (sink m).
Definition set_nowCalls (f : nat → nat) (m : Mem) : Mem :=
  mkMem (events m) (maps m) (eventPool m) (idCalls m) (f (nowCalls m)) (sink m).
Definition set_sink (f : list Entry → list Entry) (m : Mem) : Mem :=
  mkMem (events m) (maps m) (eventPool m) (idCalls m) (nowCalls m) (f (sink m)).

(** [*e]: the event a pointer refers to.  Go pointers do not dangle; an
    address that was never allocated reads as the zero value. *)
Definition load (m : Mem) (e : addr) : Event := events m !!! e.

(** [e.f = v]: one field assignment through the pointer. *)
Definition assign (e : addr) (upd : Event → Event) (m : Mem) : Mem :=
  set_events <[e := upd (load m e)]> m.

(** The contents of a map value; a nil map reads as empty. *)
Definition mapOf (m : Mem) (f : option addr) : Fields :=
  match f with
  | Some a => maps m !!! a
  | None => ∅
  end.

(** [make(Fields)] and [map[string]any{}]: a new, empty map. *)
Definition makeFields (m : Mem) : addr * Mem :=
  let a := fresh (dom (maps m)) in
  (a, set_maps <[a := ∅]> m).

(** [data[k] = v] *)
Definition mapSet (d : addr) (k : string) (v : any) (m : Mem) : Mem :=
  set_maps <[d := <[k := v]> (maps m !!! d)]> m.

(** [for k, v := range src { data[k] = v }] *)
Definition rangeInto (src : Fields) (d : addr) (m : Mem) : Mem :=
  map_fold (λ k v acc, mapSet d k v acc) m src.

(** ** The event pool

    [sync.Pool]: [Get] hands out some pooled instance, or ignores the pool and
    calls [New]; which one is not specified, so the caller of the model says
    which ([pick] is the position of the pooled instance to hand out). *)
Definition poolGet (pick : option nat) (m : Mem) : addr * Mem :=
  match pick ≫= (λ i, eventPool m !! i) with
  | Some e => (e, set_eventPool (λ p, delete (default 0%nat pick) p) m)
  | None =>
      let e := fresh (dom (events m)) in
      (e, set_events <[e := Event.zero]> m)
  end.

Definition poolPut (e : addr) (m : Mem) : Mem :=
  set_eventPool (cons e) m.

(** ** Observers and clients

    A condition reads the event through its pointer; a handler is given by
    what it does to memory when it returns.  A handler that does not return
    (the external logger ends the process at [Fatal] and panics at [Panic])
    ends the program inside [Emit], and is not described by this model. *)

Module Observer.
Record t := mk {
  id : string;
  cond : addr → Mem → bool;
  handler : addr → Mem → Mem
}.
End Observer.

Abbreviation Observer := Observer.t.

Abbreviation ObserverHandler := (addr → Mem → Mem).

Definition WildcardObserver (handler : ObserverHandler) : Observer :=
  Observer.mk "" (λ e m, true) handler.

Definition TopicObserver (topic : string) (handler : ObserverHandler) : Observer :=
  Observer.mk "" (λ e m, bool_decide (Event.topic (load m e) = topic)) handler.

Definition LevelObserver (level : Level) (handler : ObserverHandler) : Observer :=
  Observer.mk "" (λ e m, Event.level (load m e) <=? level) handler.

Module Client.
Record t := mk {
  level : Level;
  observers : list Observer
}.
End Client.

Abbreviation Client := Client.t.

Global Instance Client_inhabited : Inhabited Client := populate (Client.mk 0 []).

(** The whole state: memory, the clients, and a record of every handler
    invocation (the event and the position of the observer in its client's
    list), oldest first. *)
Record State := mkState {
  mem : Mem;
  clients : gmap addr Client;
  fired : list (addr * nat)
}.

Definition set_mem (f : Mem → Mem) (s : State) : State :=
  mkState (f (mem s)) (clients s) (fired s).
Definition set_clients (f : gmap addr Client → gmap addr Client) (s : State) : State :=
  mkState (mem s) (f (clients s)) (fired s).

(** ** Operations *)

Section Skylight.

(** The two external providers.  [gonanoid n] is the identifier returned
    by the [n]-th call of [gonanoid.Must(16)], [timeNow n] the reading of
    the [n]-th call of [time.Now()]. *)
Variable gonanoid : nat → string.
Variable timeNow : nat → Z.

Definition gonanoid_Must (m : Mem) : string * Mem :=
  (gonanoid (idCalls m), set_idCalls S m).

Definition time_Now (m : Mem) : Z * Mem :=
  (timeNow (nowCalls m), set_nowCalls S m).

(** *** Event builders: [func (e *Event) ...] *)

Definition Event_ID (e : option addr) (m : Mem) : string :=
  match e with
  | None => ""
  | Some a => Event.id (load m a)
  end.

Definition Event_Fields (fields : Fields) (e : option addr) (m : Mem)
  : option addr * Mem :=
  match e with
  | None => (e, m)
  | Some a =>
      let '(data, m1) := makeFields m in
      let m2 := rangeInto (mapOf m1 (Event.fields (load m1 a))) data m1 in
      let m3 := rangeInto fields data m2 in
      (e, assign a (Event.set_fields (Some data)) m3)
  end.

Definition Event_Fs := Event_Fields.

Definition Event_WithError (err : string) (e : option addr) (m : Mem)
  : option addr * Mem :=
  match e with
  | None => (e, m)
  | Some _ => Event_Fields {[ "error" := AnyError err ]} e m
  end.

Definition Event_Field (k : string) (v : any) (e : option addr) (m : Mem)
  : option addr * Mem :=
  match e with
  | None => (e, m)
  | Some _ => Event_Fields {[ k := v ]} e m
  end.

Definition Event_F := Event_Field.

Definition Event_Level (level : Level) (e : option addr) (m : Mem)
  : option addr * Mem :=
  match e with
  | None => (e, m)
  | Some a => (e, assign a (Event.set_level level) m)
  end.

(** [fmt.Sprint] and [fmt.Sprintf] are text formatting; the models take the
    formatted message. *)
Definition Event_Message (msg : string) (e : option addr) (m : Mem)
  : option addr * Mem :=
  match e with
  | None => (e, m)
  | Some a => (e, assign a (Event.set_message msg) m)
  end.

Definition Event_M := Event_Message.

Definition Event_ParentID (id : string) (e : option addr) (m : Mem)
  : option addr * Mem :=
  match e with
  | None => (e, m)
  | Some a => (e, assign a (Event.set_parentID id) m)
  end.

Definition Event_P := Event_ParentID.

Definition Event_Topic (topic : string) (e : option addr) (m : Mem)
  : option addr * Mem :=
  match e with
  | None => (e, m)
  | Some a => (e, assign a (Event.set_topic topic) m)
  end.

Definition Event_T := Event_Topic.

Definition Event_Evict (e : option addr) (m : Mem) : Mem :=
  match e with
  | None => m
  | Some a => poolPut a m
  end.

(** *** Creation *)

(** [func newEvent(level Level, msg string, c *Client) *Event] on memory,
    given the client's minimum level once the pointer is known not to be
    nil. *)
Definition newEvent_mem (pick : option nat) (level : Level) (msg : string)
    (ca : addr) (m : Mem) : addr * Mem :=
  let '(e, m) := poolGet pick m in
  let m := assign e (Event.set_closed false) m in
  let '(id, m) := gonanoid_Must m in
  let m := assign e (Event.set_id id) m in
  let '(now, m) := time_Now m in
  let m := assign e (Event.set_createdAt now) m in
  let m := assign e (Event.set_emittedAt 0) m in
  let m := assign e (Event.set_level level) m in
  let m := assign e (Event.set_message msg) m in
  let m := assign e (Event.set_topic "") m in
  let m := assign e (Event.set_parentID "") m in
  let '(fs, m) := makeFields m in
  let m := assign e (Event.set_fields (Some fs)) m in
  let m := assign e (Event.set_c (Some ca)) m in
  (e, m).

Definition newEvent (pick : option nat) (level : Level) (msg : string)
    (c : option addr) (s : State) : option addr * State :=
  match c with
  | None => (None, s)
  | Some ca =>
      if level <? Client.level (clients s !!! ca) then (None, s)
      else
        let '(e, m) := newEvent_mem pick level msg ca (mem s) in
        (Some e, set_mem (λ _, m) s)
  end.

(** [func newChildEvent(level Level, msg string, e *Event) *Event] *)
Definition newChildEvent (pick : option nat) (level : Level) (msg : string)
    (e : option addr) (s : State) : option addr * State :=
  match e with
  | None => (None, s)
  | Some a =>
      match Event.c (load (mem s) a) with
      | None => (None, s)
      | Some ca =>
          if level <? Client.level (clients s !!! ca) then (None, s)
          else
            let '(ce, s1) := newEvent pick level msg (Some ca) s in
            let '(r, m) := Event_ParentID (Event.id (load (mem s1) a)) ce (mem s1) in
            (r, set_mem (λ _, m) s1)
      end
  end.

(** The per-level constructors, [func (c *Client) Trace(args ...any) *Event]
    and [func (e *Event) Trace(args ...any) *Event] up to [Panic]; the [...f]
    variants differ in how the message is formatted only. *)
Definition Client_Trace pick msg c := newEvent pick LevelTrace msg c.
Definition Client_Debug pick msg c := newEvent pick LevelDebug msg c.
Definition Client_Info pick msg c := newEvent pick LevelInfo msg c.
Definition Client_Warn pick msg c := newEvent pick LevelWarn msg c.
Definition Client_Error pick msg c := newEvent pick LevelError msg c.
Definition Client_Fatal pick msg c := newEvent pick LevelFatal msg c.
Definition Client_Panic pick msg c := newEvent pick LevelPanic msg c.

Definition Event_Trace pick msg e := newChildEvent pick LevelTrace msg e.
Definition Event_Debug pick msg e := newChildEvent pick LevelDebug msg e.
Definition Event_Info pick msg e := newChildEvent pick LevelInfo msg e.
Definition Event_Warn pick msg e := newChildEvent pick LevelWarn msg e.
Definition Event_Error pick msg e := newChildEvent pick LevelError msg e.
Definition Event_Fatal pick msg e := newChildEvent pick LevelFatal msg e.
Definition Event_Panic pick msg e := newChildEvent pick LevelPanic msg e.

(** *** Clients *)

Definition Client_WithObserver (o : list Observer) (c : option addr)
    (s : State) : option addr * State :=
  match c with
  | None => (None, s)
  | Some ca =>
      let cl := clients s !!! ca in
      (c, set_clients
            <[ca := Client.mk (Client.level cl) (Client.observers cl ++ o)]> s)
  end.

Definition Client_WithLevel (level : Level) (c : option addr) (s : State)
  : option addr * State :=
  match c with
  | None => (None, s)
  | Some ca =>
      let cl := clients s !!! ca in
      (c, set_clients <[ca := Client.mk level (Client.observers cl)]> s)
  end.

(** The external logger: [logger.WithFields(fields).<Level>(message)].
    [WithFields] copies the map it is given; the logger is set to
    [logrus.TraceLevel], so every level is written.  The entry is written
    before [logger.Fatal] ends the process and before [logger.Panic] panics:
    at these two levels the call does not return, and what follows it in the
    program ([Emit]'s release of the event included) does not happen. *)
Definition logrus_log (level : Level) (fields : addr) (message : string)
    (m : Mem) : Mem :=
  set_sink (λ out, out ++ [mkEntry level message (maps m !!! fields)]) m.

(** The handler installed by [WithStandardLogger]: the memory it leaves when
    the external logger returns (Trace to Error), and the memory in which
    the program leaves the handler when it does not (Fatal, Panic). *)
Definition loggerHandler (e : addr) (m : Mem) : Mem :=
  let '(fields, m) := makeFields m in
  let fields :=
    if (0 <? Z.of_nat (size (mapOf m (Event.fields (load m e)))))
    then default fields (Event.fields (load m e))
    else fields in
  let m :=
    if bool_decide (Event.parentID (load m e) ≠ "")
    then mapSet fields "parentID" (AnyString (Event.parentID (load m e))) m
    else m in
  let message := Event.message (load m e) in
  let message :=
    if bool_decide (Event.topic (load m e) ≠ "")
    then "[" +:+ Event.topic (load m e) +:+ "] " +:+ message
    else message in
  let l := Event.level (load m e) in
  if (l =? LevelTrace) || (l =? LevelDebug) || (l =? LevelInfo)
     || (l =? LevelWarn) || (l =? LevelError) || (l =? LevelFatal)
     || (l =? LevelPanic)
  then logrus_log l fields message m
  else m.

Definition loggerObserver : Observer :=
  Observer.mk "logger" (λ e m, true) loggerHandler.

Definition Client_WithStandardLogger (c : option addr) (s : State)
  : option addr * State :=
  match c with
  | None => (None, s)
  | Some ca =>
      let hasLogger :=
        existsb (λ o, bool_decide (Observer.id o = "logger"))
                (Client.observers (clients s !!! ca)) in
      if negb hasLogger
      then (c, (Client_WithObserver [loggerObserver] c s).2)
      else (c, s)
  end.

(** [type Option func(c *Client)] *)
Definition Option_ := addr → State → State.

Definition WithLevel (l : Level) : Option_ :=
  λ c s, (Client_WithLevel l (Some c) s).2.
Definition WithObserver (o : list Observer) : Option_ :=
  λ c s, (Client_WithObserver o (Some c) s).2.
Definition WithStandardLogger : Option_ :=
  λ c s, (Client_WithStandardLogger (Some c) s).2.

(** [func New(opts ...Option) *Client] *)
Definition New (opts : list Option_) (s : State) : option addr * State :=
  let c := fresh (dom (clients s)) in
  let s := set_clients <[c := Client.mk LevelInfo []]> s in
  (Some c, foldl (λ s opt, opt c s) s opts).

(** [var defaultClient = New().WithStandardLogger()]: the client made when
    the package is initialised, and the state the program starts in. *)
Definition defaultClient : option addr :=
  (New [] (mkState (mkMem ∅ ∅ [] 0 0 []) ∅ [])).1.

Definition initState : State :=
  (Client_WithStandardLogger defaultClient
     (New [] (mkState (mkMem ∅ ∅ [] 0 0 []) ∅ [])).2).2.

Definition Default : option addr := defaultClient.

(** The package-level constructors, [func Trace(args ...any) *Event] up to
    [Panic]. *)
Definition Trace pick msg := newEvent pick LevelTrace msg defaultClient.
Definition Debug pick msg := newEvent pick LevelDebug msg defaultClient.
Definition Info pick msg := newEvent pick LevelInfo msg defaultClient.
Definition Warn pick msg := newEvent pick LevelWarn msg defaultClient.
Definition Error pick msg := newEvent pick LevelError msg defaultClient.
Definition Fatal pick msg := newEvent pick LevelFatal msg defaultClient.
Definition Panic pick msg := newEvent pick LevelPanic msg defaultClient.

(** *** Emission *)

(** The loop of [Emit]:
    [for _, o := range e.c.observers { if o.cond(e) { o.handler(e) } }].
    [i] is the position of the head of [os] in the client's list; the
    result carries the positions of the observers whose handler ran. *)
Fixpoint dispatch (os : list Observer) (i : nat) (e : addr) (m : Mem)
  : Mem * list nat :=
  match os with
  | [] => (m, [])
  | o :: os' =>
      if Observer.cond o e m
      then let '(m', tr) := dispatch os' (S i) e (Observer.handler o e m) in
           (m', i :: tr)
      else dispatch os' (S i) e m
  end.

(** [hold ...bool]: [len(hold) > 0 && hold[0]] *)
Definition held (hold : list bool) : bool :=
  match hold with
  | h :: _ => h
  | [] => false
  end.

(** [func (e *Event) Emit(hold ...bool) *Event].  The outer [option] is
    [None] when the call panics: [e.c.observers] with a nil [e.c].  The
    observer list is read once, before the loop, as [range] does. *)
Definition Event_Emit (hold : list bool) (e : option addr) (s : State)
  : option (option addr * State) :=
  match e with
  | None => Some (None, s)
  | Some a =>
      if Event.closed (load (mem s) a) then Some (e, s)
      else
        let '(now, m) := time_Now (mem s) in
        let m := assign a (Event.set_emittedAt now) m in
        let m := assign a (Event.set_closed true) m in
        match Event.c (load m a) with
        | None => None
        | Some ca =>
            let '(m, tr) := dispatch (Client.observers (clients s !!! ca)) 0 a m in
            let m := if held hold then m else poolPut a m in
            Some (e, mkState m (clients s) (fired s ++ ((λ i, (a, i)) <$> tr)))
        end
  end.

Definition Event_E := Event_Emit.

(** The memory at the start of the loop of [Emit]: the event stamped and
    closed. *)
Definition emitStart (a : addr) (m : Mem) : Mem :=
  assign a (Event.set_closed true)
    (assign a (Event.set_emittedAt (timeNow (nowCalls m))) (set_nowCalls S m)).

End Skylight.

(** ** Notions used by the statements *)

(** The standard levels, in rank order. *)
Definition levels : list Level :=
  [LevelNone; LevelTrace; LevelDebug; LevelInfo; LevelWarn; LevelError;
   LevelFatal; LevelPanic].

(** The event's field map, when it has one, is an allocated map. *)
Definition fieldsAllocated (m : Mem) (e : addr) : Prop :=
  match Event.fields (load m e) with
  | Some fa => fa ∈ dom (maps m)
  | None => True
  end.

(** The memory in which the loop of [Emit] finds the observer at position
    [i]: the one left by the observers before it. *)
Definition reach (os : list Observer) (e : addr) (m : Mem) (i : nat) : Mem :=
  (dispatch (take i os) 0 e m).1.

(** The observers of a list that carry the reserved id. *)
Definition loggers (os : list Observer) : list Observer :=
  filter (λ o, Observer.id o = "logger") os.

(** ** Concrete instances *)

(** A state with one client, at address 0, whose minimum level is
    [LevelNone] and which has no observers. *)
Definition stateLevelNone : State :=
  mkState (mkMem ∅ ∅ [] 0 0 []) {[ 0%nat := Client.mk LevelNone [] ]} [].

(** An identifier provider without collisions and a clock. *)
Definition exampleId (n : nat) : string := pretty n.
Definition exampleNow (n : nat) : Z := 1000 + Z.of_nat n.

Definition emptyState : State := mkState (mkMem ∅ ∅ [] 0 0 []) ∅ [].

(** A handler that retags the event it is given. *)
Definition retag (e : addr) (m : Mem) : Mem :=
  assign e (Event.set_topic "seen") m.

(** [New(WithObserver(LevelObserver(LevelWarn, retag)), WithStandardLogger())]:
    the client is at address 0. *)
Definition stateTwoObservers : State :=
  (New [WithObserver [LevelObserver LevelWarn retag]; WithStandardLogger]
       emptyState).2.

(** An event of that client, created at [LevelError] and given a field:
    the event is at address 0. *)
Definition stateOpenEvent : State :=
  let '(e, s) :=
    newEvent exampleId exampleNow None LevelError "disk full" (Some 0%nat)
             stateTwoObservers in
  set_mem (λ m, (Event_Fields {[ "a" := AnyInt 1 ]} e m).2) s.

(** The same event once emitted without hold: it sits in the pool. *)
Definition statePooledEvent : State :=
  match Event_Emit exampleNow [] (Some 0%nat) stateOpenEvent with
  | Some (_, s) => s
  | None => stateOpenEvent
  end.

(** The open event with a parent set. *)
Definition memWithParent : Mem :=
  (Event_ParentID "p-1" (Some 0%nat) (mem stateOpenEvent)).2.


(** ** Chains of builder calls

    One call of a builder method of [*Event], and a chain of them as in
    [e.Topic(t).Field(k, v).Level(l)]: each call is made on what the previous
    one returned. *)
Inductive BuilderCall :=
| CallLevel (level : Level)
| CallMessage (msg : string)
| CallTopic (topic : string)
| CallParentID (id : string)
| CallFields (fields : Fields)
| CallField (k : string) (v : any)
| CallWithError (err : string).

Definition call (b : BuilderCall) (e : option addr) (m : Mem)
  : option addr * Mem :=
  match b with
  | CallLevel level => Event_Level level e m
  | CallMessage msg => Event_Message msg e m
  | CallTopic topic => Event_Topic topic e m
  | CallParentID id => Event_ParentID id e m
  | CallFields fields => Event_Fields fields e m
  | CallField k v => Event_Field k v e m
  | CallWithError err => Event_WithError err e m
  end.

Definition chain (bs : list BuilderCall) (e : option addr) (m : Mem)
  : option addr * Mem :=
  foldl (λ r b, call b r.1 r.2) (e, m) bs.

(** An event made through the package-level [Info] on the default client,
    which has the standard logger only: the event is at address 0. *)
Definition stateDefaultEvent : State :=
  (Info exampleId exampleNow None "started" initState).2.


(** What a builder call never changes: the identity of the event (its id,
    client, state and time stamps), the other events, the pool, the two
    providers and the sink. *)
Definition sameIdentity (e1 e2 : Event) : Prop :=
  Event.id e1 = Event.id e2
  ∧ Event.c e1 = Event.c e2
  ∧ Event.closed e1 = Event.closed e2
  ∧ Event.createdAt e1 = Event.createdAt e2
  ∧ Event.emittedAt e1 = Event.emittedAt e2.

Definition builderFrame (a : addr) (m m' : Mem) : Prop :=
  sameIdentity (load m' a) (load m a)
  ∧ (∀ e, e ≠ a → load m' e = load m e)
  ∧ eventPool m' = eventPool m
  ∧ idCalls m' = idCalls m
  ∧ nowCalls m' = nowCalls m
  ∧ sink m' = sink m.


(** The levels the standard logger has a case for. *)
Definition loggedLevel (l : Level) : bool :=
  (l =? LevelTrace) || (l =? LevelDebug) || (l =? LevelInfo)
  || (l =? LevelWarn) || (l =? LevelError) || (l =? LevelFatal)
  || (l =? LevelPanic).

(** What the standard logger forwards for an event: the message, with the
    topic in brackets before it when there is one, and the fields, with the
    parent's id among them when there is one. *)
Definition loggedMessage (ev : Event) : string :=
  if bool_decide (Event.topic ev ≠ "")
  then "[" +:+ Event.topic ev +:+ "] " +:+ Event.message ev
  else Event.message ev.

Definition loggedFields (m : Mem) (ev : Event) : Fields :=
  if bool_decide (Event.parentID ev ≠ "")
  then <["parentID" := AnyString (Event.parentID ev)]> (mapOf m (Event.fields ev))
  else mapOf m (Event.fields ev).


(** ** Standard options

    The three options the package provides, as [New] is given them. *)
Inductive StdOption :=
| OptLevel (l : Level)
| OptObserver (o : list Observer)
| OptStandardLogger.

Definition option_of (o : StdOption) : Option_ :=
  match o with
  | OptLevel l => WithLevel l
  | OptObserver o => WithObserver o
  | OptStandardLogger => WithStandardLogger
  end.

(** The levels a list of options asks for, in order. *)
Definition levelsOf (opts : list StdOption) : list Level :=
  omap (λ o, match o with OptLevel l => Some l | _ => None end) opts.

(** No observer an option registers carries the reserved id. *)
Definition publicObservers (o : StdOption) : Prop :=
  match o with
  | OptObserver os => Forall (λ ob, Observer.id ob ≠ "logger") os
  | _ => True
  end.


(** What a chain of builder calls is for: the level, message, topic, parent
    id and field contents of the event, as values. *)
Definition snapshot (m : Mem) (a : addr)
  : Level * string * string * string * Fields :=
  (Event.level (load m a), Event.message (load m a), Event.topic (load m a),
   Event.parentID (load m a), mapOf m (Event.fields (load m a))).

(** The same call on the values. *)
Definition step (v : Level * string * string * string * Fields)
    (b : BuilderCall) : Level * string * string * string * Fields :=
  let '(l, msg, t, p, f) := v in
  match b with
  | CallLevel l' => (l', msg, t, p, f)
  | CallMessage msg' => (l, msg', t, p, f)
  | CallTopic t' => (l, msg, t', p, f)
  | CallParentID p' => (l, msg, t, p', f)
  | CallFields F => (l, msg, t, p, F ∪ f)
  | CallField k x => (l, msg, t, p, <[k := x]> f)
  | CallWithError err => (l, msg, t, p, <["error" := AnyError err]> f)
  end.


(** A handler that releases the event it is given and creates an event on
    client 0, [func(e *Event) { e.Evict(); c.Info("again") }], when the pool
    hands the released instance back. *)
Definition reopen (e : addr) (m : Mem) : Mem :=
  (newEvent_mem exampleId exampleNow (Some 0%nat) LevelInfo "again" 0%nat
                (Event_Evict (Some e) m)).2.

(** [New(WithObserver(WildcardObserver(reopen)))] and an event of that
    client: client and event are at address 0. *)
Definition stateReopening : State :=
  (New [WithObserver [WildcardObserver reopen]] emptyState).2.

Definition stateReopeningEvent : State :=
  (newEvent exampleId exampleNow None LevelInfo "start" (Some 0%nat)
            stateReopening).2.

(** The state after one [Emit] of that event. *)
Definition stateReopenedOnce : State :=
  match Event_Emit exampleNow [] (Some 0%nat) stateReopeningEvent with
  | Some (_, s) => s
  | None => stateReopeningEvent
  end.

(** A state whose only event, at address 0, is the zero value [Event{}]. *)
Definition stateZeroEvent : State :=
  mkState (mkMem {[ 0%nat := Event.zero ]} ∅ [] 0 0 []) ∅ [].


(** * Properties *)

(** ** Memory lemmas *)

Lemma load_assign e upd m : load (assign e upd m) e = upd (load m e).
Proof. unfold load, assign. cbn. apply lookup_total_insert_eq. Qed.

Lemma load_assign_ne e e' upd m :
  e ≠ e' → load (assign e upd m) e' = load m e'.
Proof. intros Hne. unfold load, assign. cbn. by apply lookup_total_insert_ne. Qed.

Lemma maps_assign e upd m : maps (assign e upd m) = maps m.
Proof. reflexivity. Qed.

Lemma eventPool_assign e upd m : eventPool (assign e upd m) = eventPool m.
Proof. reflexivity. Qed.

Lemma idCalls_assign e upd m : idCalls (assign e upd m) = idCalls m.
Proof. reflexivity. Qed.

Lemma nowCalls_assign e upd m : nowCalls (assign e upd m) = nowCalls m.
Proof. reflexivity. Qed.

Lemma sink_assign e upd m : sink (assign e upd m) = sink m.
Proof. reflexivity. Qed.

Lemma load_set_maps f m e : load (set_maps f m) e = load m e.
Proof. reflexivity. Qed.

Lemma load_set_idCalls f m e : load (set_idCalls f m) e = load m e.
Proof. reflexivity. Qed.

Lemma load_set_nowCalls f m e : load (set_nowCalls f m) e = load m e.
Proof. reflexivity. Qed.

Lemma load_set_sink f m e : load (set_sink f m) e = load m e.
Proof. reflexivity. Qed.

Lemma load_set_eventPool f m e : load (set_eventPool f m) e = load m e.
Proof. reflexivity. Qed.

Create Rewrite HintDb mem.

#[global] Hint Rewrite load_assign maps_assign eventPool_assign idCalls_assign
  nowCalls_assign sink_assign load_set_maps load_set_idCalls load_set_nowCalls
  load_set_sink load_set_eventPool : mem.

(** Normalise reads of a memory built by field assignments and counter
    updates. *)
Ltac mem_norm :=
  repeat (progress (autorewrite with mem;
                    cbn [maps eventPool idCalls nowCalls sink set_maps
                         set_idCalls set_nowCalls set_sink set_eventPool
                         fst snd])).

Lemma load_mapSet d k v m e : load (mapSet d k v m) e = load m e.
Proof. reflexivity. Qed.

Lemma load_poolPut a m e : load (poolPut a m) e = load m e.
Proof. reflexivity. Qed.

Lemma makeFields_fresh m : (makeFields m).1 ∉ dom (maps m).
Proof. apply is_fresh. Qed.

Lemma makeFields_empty m : maps (makeFields m).2 !!! (makeFields m).1 = (∅ : Fields).
Proof. cbn. apply lookup_total_insert_eq. Qed.

Lemma makeFields_other m a :
  a ∈ dom (maps m) → maps (makeFields m).2 !!! a = maps m !!! a.
Proof.
  intros Ha. cbn. apply lookup_total_insert_ne.
  intros <-. by apply (is_fresh (dom (maps m))).
Qed.

Lemma load_makeFields m e : load (makeFields m).2 e = load m e.
Proof. reflexivity. Qed.

(** What [poolGet] hands out is either pooled or newly allocated. *)
Lemma poolGet_cases pick m :
  (∃ i, pick = Some i ∧ eventPool m !! i = Some (poolGet pick m).1
        ∧ (poolGet pick m).2 = set_eventPool (delete i) m)
  ∨ (((poolGet pick m).1 ∉ dom (events m))
     ∧ (poolGet pick m).2 = set_events <[(poolGet pick m).1 := Event.zero]> m).
Proof.
  unfold poolGet. destruct pick as [i|]; cbn.
  - destruct (eventPool m !! i) as [e|] eqn:He; cbn.
    + left. by exists i.
    + right. split; [apply is_fresh | done].
  - right. split; [apply is_fresh | done].
Qed.

Lemma poolGet_maps pick m : maps (poolGet pick m).2 = maps m.
Proof. destruct (poolGet_cases pick m) as [(i & _ & _ & ->)|[_ ->]]; done. Qed.

Lemma poolGet_idCalls pick m : idCalls (poolGet pick m).2 = idCalls m.
Proof. destruct (poolGet_cases pick m) as [(i & _ & _ & ->)|[_ ->]]; done. Qed.

Lemma poolGet_nowCalls pick m : nowCalls (poolGet pick m).2 = nowCalls m.
Proof. destruct (poolGet_cases pick m) as [(i & _ & _ & ->)|[_ ->]]; done. Qed.

Lemma poolGet_load_ne pick m e :
  e ≠ (poolGet pick m).1 → load (poolGet pick m).2 e = load m e.
Proof.
  intros Hne. destruct (poolGet_cases pick m) as [(i & _ & _ & ->)|[_ ->]]; [done|].
  unfold load. cbn. by apply lookup_total_insert_ne.
Qed.

Section Creation.

Variable gonanoid : nat → string.
Variable timeNow : nat → Z.

(** The event [newEvent_mem] returns is the pooled or new instance, and it
    holds exactly the values [newEvent] assigns, whatever it held before. *)
Lemma newEvent_mem_spec pick L msg ca m :
  let r := newEvent_mem gonanoid timeNow pick L msg ca m in
  let fs := fresh (dom (maps m)) in
  r.1 = (poolGet pick m).1
  ∧ load r.2 r.1 =
      Event.mk (Some ca) false (gonanoid (idCalls m)) (timeNow (nowCalls m))
               0 L msg "" "" (Some fs)
  ∧ maps r.2 = <[fs := ∅]> (maps m)
  ∧ idCalls r.2 = S (idCalls m)
  ∧ nowCalls r.2 = S (nowCalls m)
  ∧ sink r.2 = sink m
  ∧ (∀ e, e ≠ r.1 → load r.2 e = load m e).
Proof.
  unfold newEvent_mem.
  pose proof (poolGet_maps pick m) as Hmaps.
  pose proof (poolGet_idCalls pick m) as Hid.
  pose proof (poolGet_nowCalls pick m) as Hnow.
  pose proof (poolGet_load_ne pick m) as Hne.
  assert (sink (poolGet pick m).2 = sink m) as Hsink.
  { destruct (poolGet_cases pick m) as [(i & _ & _ & ->)|[_ ->]]; done. }
  destruct (poolGet pick m) as [e m1]. cbn [fst snd] in *.
  cbn -[load assign fresh]. mem_norm. rewrite Hmaps, Hid, Hnow, Hsink.
  split_and!; try done.
  intros e' He'.
  repeat first [rewrite load_assign_ne by done | progress mem_norm].
  by apply Hne.
Qed.

Lemma newEvent_accept pick L msg ca s :
  Client.level (clients s !!! ca) ≤ L →
  newEvent gonanoid timeNow pick L msg (Some ca) s =
    (Some (newEvent_mem gonanoid timeNow pick L msg ca (mem s)).1,
     set_mem (λ _, (newEvent_mem gonanoid timeNow pick L msg ca (mem s)).2) s).
Proof.
  intros Hle. unfold newEvent.
  destruct (Z.ltb_spec L (Client.level (clients s !!! ca))) as [Hlt|_]; [lia|].
  by destruct (newEvent_mem _ _ _ _ _ _ _).
Qed.

Lemma newEvent_reject pick L msg ca s :
  L < Client.level (clients s !!! ca) →
  newEvent gonanoid timeNow pick L msg (Some ca) s = (None, s).
Proof.
  intros Hlt. unfold newEvent.
  by destruct (Z.ltb_spec L (Client.level (clients s !!! ca))) as [_|Hle]; [|lia].
Qed.

(** What a factory returns is an open event that belongs to the client. *)
Lemma newEvent_returns_open pick L msg c s e s' :
  newEvent gonanoid timeNow pick L msg c s = (Some e, s') →
  Event.closed (load (mem s') e) = false ∧ Event.c (load (mem s') e) = c.
Proof.
  destruct c as [ca|]; [|done].
  destruct (Z.lt_ge_cases L (Client.level (clients s !!! ca))) as [Hlt|Hge].
  { by rewrite newEvent_reject. }
  rewrite newEvent_accept by done. intros [= <- <-]. cbn [mem set_mem].
  destruct (newEvent_mem_spec pick L msg ca (mem s)) as (_ & -> & _). done.
Qed.

(** C1 (what the code does): on a client whose minimum level is [LevelNone],
    [newEvent] returns an event, not nil, at every one of the eight levels:
    the only filter is [level < c.level], and no level is below
    [LevelNone]. *)
Lemma newEvent_LevelNone_client_accepts :
  Forall (λ L, (newEvent gonanoid timeNow None L "msg" (Some 0%nat)
                  stateLevelNone).1 = Some 0%nat) levels.
Proof. repeat constructor. Qed.

(** C4: [newEvent] returns nil exactly when the client is nil or the level is
    below the client's level; otherwise the event it returns carries the
    level, the message and the client it was given.  With a client at
    [LevelInfo], Trace and Debug are refused, Info to Panic are accepted. *)
Theorem newEvent_nil_iff_filtered pick L msg c s :
  let r := newEvent gonanoid timeNow pick L msg c s in
  (r.1 = None
     ↔ c = None ∨ ∃ ca, c = Some ca ∧ L < Client.level (clients s !!! ca))
  ∧ (∀ e, r.1 = Some e →
       Event.level (load (mem r.2) e) = L
       ∧ Event.message (load (mem r.2) e) = msg
       ∧ Event.c (load (mem r.2) e) = c)
  ∧ (∀ ca, c = Some ca → Client.level (clients s !!! ca) = LevelInfo →
       (L ∈ [LevelTrace; LevelDebug] → r.1 = None)
       ∧ (L ∈ [LevelInfo; LevelWarn; LevelError; LevelFatal; LevelPanic] →
          r.1 ≠ None)).
Proof.
  cbn zeta. destruct c as [ca|].
  - destruct (Z.lt_ge_cases L (Client.level (clients s !!! ca))) as [Hlt|Hge].
    + rewrite newEvent_reject by done. cbn. split_and!.
      * split; [intros _; right; eauto | done].
      * done.
      * intros ca' [= <-] HInfo. rewrite HInfo in Hlt. split; [done|].
        unfold LevelInfo, LevelWarn, LevelError, LevelFatal, LevelPanic in *.
        rewrite !elem_of_cons, elem_of_nil. lia.
    + rewrite newEvent_accept by done. cbn [fst snd mem set_mem].
      destruct (newEvent_mem_spec pick L msg ca (mem s)) as (_ & Hev & _).
      split_and!.
      * split; [done|]. intros [?|(ca' & [= <-] & ?)]; [done | lia].
      * intros e [= <-]. by rewrite Hev.
      * intros ca' [= <-] HInfo. rewrite HInfo in Hge. split; [|done].
        unfold LevelInfo, LevelTrace, LevelDebug in *.
        rewrite !elem_of_cons, elem_of_nil. lia.
  - cbn. split_and!; [split; [by left | done] | done | done].
Qed.

(** C5: an accepted creation leaves the instance it returns, pooled before or
    not, holding exactly the values of this creation: not closed, not
    emitted, no topic, no parent, a new empty field map allocated by this
    call, and the identifier the provider returns on this call, which no
    earlier call returned when the provider is collision-free.  No field of
    the result depends on what the instance held before. *)
Theorem newEvent_resets_every_field pick L msg ca s :
  Client.level (clients s !!! ca) ≤ L →
  ∃ e s',
    newEvent gonanoid timeNow pick L msg (Some ca) s = (Some e, s')
    ∧ ∃ fs,
        load (mem s') e =
          Event.mk (Some ca) false (gonanoid (idCalls (mem s)))
                   (timeNow (nowCalls (mem s))) 0 L msg "" "" (Some fs)
        ∧ (fs ∉ dom (maps (mem s)))
        ∧ maps (mem s') !! fs = Some ∅
        ∧ idCalls (mem s') = S (idCalls (mem s))
        ∧ (Inj (=) (=) gonanoid →
           ∀ k, (k < idCalls (mem s))%nat → Event.id (load (mem s') e) ≠ gonanoid k).
Proof.
  intros Hle. rewrite newEvent_accept by done.
  destruct (newEvent_mem_spec pick L msg ca (mem s)) as (_ & Hev & Hmaps & Hid & _).
  eexists _, _. split; [reflexivity|].
  exists (fresh (dom (maps (mem s)))). cbn [mem set_mem].
  split_and!; try done.
  - apply is_fresh.
  - rewrite Hmaps. apply lookup_insert_eq.
  - intros Hinj k Hk. rewrite Hev. cbn. intros Heq%Hinj. lia.
Qed.

(** [newChildEvent] returns nil exactly when the parent is nil, has no
    client, or the level is below the client's level.  Otherwise the child
    belongs to the parent's client, and its [parentID] is the [id] found in
    the parent after the creation, which is the parent's own [id] only when
    the parent is not the instance the creation was handed. *)
Lemma newChildEvent_parentID pick L msg e s :
  let r := newChildEvent gonanoid timeNow pick L msg e s in
  (r.1 = None
     ↔ e = None
       ∨ ∃ a, e = Some a
              ∧ (Event.c (load (mem s) a) = None
                 ∨ ∃ ca, Event.c (load (mem s) a) = Some ca
                         ∧ L < Client.level (clients s !!! ca)))
  ∧ (∀ a ca,
       e = Some a →
       Event.c (load (mem s) a) = Some ca →
       Client.level (clients s !!! ca) ≤ L →
       ∃ ch,
         r.1 = Some ch
         ∧ Event.c (load (mem r.2) ch) = Some ca
         ∧ Event.parentID (load (mem r.2) ch) = Event.id (load (mem r.2) a)
         ∧ (ch ≠ a → Event.id (load (mem r.2) a) = Event.id (load (mem s) a))
         ∧ (a ∈ dom (events (mem s)) → a ∉ eventPool (mem s) → ch ≠ a)).
Proof.
  cbn zeta. unfold newChildEvent. destruct e as [a|]; cycle 1.
  { cbn. split; [split; [by left | done] | done]. }
  destruct (Event.c (load (mem s) a)) as [ca|] eqn:Hc; cycle 1.
  { cbn. split; [split; [right; eauto | done] |].
    intros a' ca' [= <-]. congruence. }
  destruct (Z.ltb_spec L (Client.level (clients s !!! ca))) as [Hlt|Hge].
  { cbn. split.
    - split; [|done]. intros _. right. exists a. split; [done|]. right. eauto.
    - intros a' ca' [= <-] Hc' ?. assert (ca' = ca) as -> by congruence. lia. }
  rewrite newEvent_accept by done.
  destruct (newEvent_mem_spec pick L msg ca (mem s)) as (Hch & Hev & _ & _ & _ & _ & Hother).
  set (ch := (newEvent_mem gonanoid timeNow pick L msg ca (mem s)).1) in *.
  set (m1 := (newEvent_mem gonanoid timeNow pick L msg ca (mem s)).2) in *.
  cbn [Event_ParentID fst snd mem set_mem]. split.
  - split; [done|].
    intros [?|(a' & [= <-] & [?|(ca' & ? & ?)])]; [done | congruence |].
    assert (ca' = ca) as -> by congruence. lia.
  - intros a' ca' [= <-] Hc' _. assert (ca' = ca) as -> by congruence.
    exists ch. split_and!; [done | | | |].
    + by rewrite load_assign, Hev.
    + rewrite load_assign. cbn.
      destruct (decide (ch = a)) as [->|Hne]; [by rewrite load_assign|].
      by rewrite load_assign_ne.
    + intros Hne. rewrite load_assign_ne by done. f_equal. by apply Hother.
    + intros Hdom Hpool ->. rewrite Hch in Hpool, Hdom.
      destruct (poolGet_cases pick (mem s)) as [(i & _ & Hi & _)|[Hfresh _]].
      * apply Hpool. by eapply list_elem_of_lookup_2.
      * done.
Qed.

End Creation.

(** ** Field maps *)

Lemma mapOf_makeFields m f : mapOf (makeFields m).2 f = mapOf m f.
Proof.
  destruct f as [a|]; [|done]. cbn.
  destruct (decide (fresh (dom (maps m)) = a)) as [<-|Hne].
  - rewrite lookup_total_insert_eq. symmetry.
    rewrite lookup_total_alt.
    by rewrite (not_elem_of_dom_1 _ _ (is_fresh (dom (maps m)))).
  - by rewrite lookup_total_insert_ne.
Qed.

(** The copy loop leaves at [d] the source laid over what [d] held, and
    touches nothing else. *)
Lemma rangeInto_spec src d m :
  maps (rangeInto src d m) !!! d = src ∪ (maps m !!! d)
  ∧ (∀ a, a ≠ d → maps (rangeInto src d m) !!! a = maps m !!! a)
  ∧ events (rangeInto src d m) = events m
  ∧ eventPool (rangeInto src d m) = eventPool m
  ∧ idCalls (rangeInto src d m) = idCalls m
  ∧ nowCalls (rangeInto src d m) = nowCalls m
  ∧ sink (rangeInto src d m) = sink m.
Proof.
  unfold rangeInto.
  apply (map_fold_weak_ind
           (λ r src, maps r !!! d = src ∪ (maps m !!! d)
                     ∧ (∀ a, a ≠ d → maps r !!! a = maps m !!! a)
                     ∧ events r = events m
                     ∧ eventPool r = eventPool m
                     ∧ idCalls r = idCalls m
                     ∧ nowCalls r = nowCalls m
                     ∧ sink r = sink m)).
  - split_and!; try done. by rewrite (left_id_L ∅ (∪)).
  - intros k v src' r Hk (Hd & Hother & He & Hp & Hi & Hn & Hs).
    split_and!; try done.
    + cbn. rewrite lookup_total_insert_eq, Hd. by rewrite insert_union_l.
    + intros a Ha. cbn. rewrite lookup_total_insert_ne by done. by apply Hother.
Qed.

Lemma load_rangeInto src d m e : load (rangeInto src d m) e = load m e.
Proof.
  unfold load. by destruct (rangeInto_spec src d m) as (_ & _ & -> & _).
Qed.

(** C9: merging [F] into an event replaces the event's field map by the old
    entries overlaid with [F]: a key of [F] takes [F]'s value, every other key
    keeps the value it had.  No other field of the event changes. *)
Theorem Event_Fields_overwrites_by_key F a m :
  let r := Event_Fields F (Some a) m in
  let old := mapOf m (Event.fields (load m a)) in
  let new := mapOf r.2 (Event.fields (load r.2 a)) in
  r.1 = Some a
  ∧ new = F ∪ old
  ∧ (∀ k v, F !! k = Some v → new !! k = Some v)
  ∧ (∀ k, F !! k = None → new !! k = old !! k)
  ∧ load r.2 a = Event.set_fields (Event.fields (load r.2 a)) (load m a).
Proof.
  cbn zeta. unfold Event_Fields.
  pose proof (mapOf_makeFields m) as Hsame.
  pose proof (load_makeFields m) as Hload.
  pose proof (makeFields_empty m) as Hempty.
  pose proof (makeFields_fresh m) as Hfresh.
  destruct (makeFields m) as [data m1] eqn:Hmk. cbn [fst snd] in *.
  rewrite Hload, Hsame.
  set (old := mapOf m (Event.fields (load m a))).
  destruct (rangeInto_spec old data m1) as (Hd1 & Ho1 & _).
  set (m2 := rangeInto old data m1) in *.
  destruct (rangeInto_spec F data m2) as (Hd2 & Ho2 & _).
  set (m3 := rangeInto F data m2) in *.
  assert (mapOf (assign a (Event.set_fields (Some data)) m3) (Some data) = F ∪ old)
    as Hnew.
  { cbn. rewrite Hd2, Hd1, Hempty. by rewrite (right_id_L ∅ (∪)). }
  rewrite load_assign. cbn [Event.fields Event.set_fields fst snd].
  split_and!.
  - done.
  - done.
  - intros k v Hk. rewrite Hnew. by apply lookup_union_Some_l.
  - intros k Hk. rewrite Hnew. by apply lookup_union_r.
  - unfold m3, m2. by rewrite !load_rangeInto, Hload.
Qed.

(** ** The standard logger *)

Lemma len_pos_iff (f : Fields) : (0 <? Z.of_nat (size f)) = true ↔ f ≠ ∅.
Proof.
  rewrite Z.ltb_lt, <-map_size_empty_iff. lia.
Qed.

Lemma mapOf_logrus_log l fields message m f :
  mapOf (logrus_log l fields message m) f = mapOf m f.
Proof. by destruct f. Qed.

(** The handler's effect on memory, by the two tests it makes. *)
Lemma loggerHandler_maps e m :
  let ev := load m e in
  let fresh_map := fresh (dom (maps m)) in
  let target :=
    if 0 <? Z.of_nat (size (mapOf m (Event.fields ev)))
    then default fresh_map (Event.fields ev) else fresh_map in
  events (loggerHandler e m) = events m
  ∧ maps (loggerHandler e m) =
      if bool_decide (Event.parentID ev ≠ "")
      then <[target := <["parentID" := AnyString (Event.parentID ev)]>
                         (<[fresh_map := ∅]> (maps m) !!! target)]>
             (<[fresh_map := ∅]> (maps m))
      else <[fresh_map := ∅]> (maps m).
Proof.
  cbn zeta. unfold loggerHandler.
  pose proof (mapOf_makeFields m (Event.fields (load m e))) as Hsame.
  cbn -[fresh mapOf] in *. mem_norm. rewrite Hsame.
  case_bool_decide; mem_norm;
    destruct (_ || _); done.
Qed.

(** C10: the standard logger's handler writes into the event's own field map.
    On an event with a non-empty field map and a parent, the map the handler
    fills is the event's map, and the event's fields hold a ["parentID"]
    entry afterwards; on an event whose field map is empty the handler fills
    a map of its own and the event's fields stay empty. *)
Theorem loggerHandler_aliases_event_fields e m :
  let ev := load m e in
  let m' := loggerHandler e m in
  load m' e = ev
  ∧ (mapOf m (Event.fields ev) ≠ ∅ →
     Event.parentID ev ≠ "" →
     mapOf m' (Event.fields (load m' e)) =
       <["parentID" := AnyString (Event.parentID ev)]> (mapOf m (Event.fields ev)))
  ∧ (fieldsAllocated m e →
     mapOf m (Event.fields ev) = ∅ →
     mapOf m' (Event.fields (load m' e)) = ∅).
Proof.
  cbn zeta. destruct (loggerHandler_maps e m) as [Hev Hmaps].
  assert (load (loggerHandler e m) e = load m e) as Hload.
  { unfold load. by rewrite Hev. }
  rewrite Hload. split; [done|].
  pose proof (is_fresh (dom (maps m))) as Hfresh.
  unfold fieldsAllocated.
  destruct (Event.fields (load m e)) as [fa|] eqn:Hfa; cbn [mapOf default] in *.
  - split.
    + intros Hne Hpid. rewrite Hmaps.
      rewrite (proj2 (len_pos_iff _) Hne), bool_decide_true by done.
      rewrite lookup_total_insert_eq. f_equal.
      apply lookup_total_insert_ne. intros <-. apply Hne.
      rewrite lookup_total_alt. by rewrite (not_elem_of_dom_1 _ _ Hfresh).
    + intros Hdom Hempty. rewrite Hmaps.
      assert ((0 <? Z.of_nat (size (maps m !!! fa))) = false) as ->.
      { by rewrite Hempty. }
      assert (fresh (dom (maps m)) ≠ fa) as Hne by (by intros <-).
      case_bool_decide; rewrite ?lookup_total_insert_ne by done; done.
  - split; [done|]. done.
Qed.

(** ** Dispatch *)

Lemma dispatch_app os1 os2 i e m :
  dispatch (os1 ++ os2) i e m =
    ((dispatch os2 (i + length os1) e (dispatch os1 i e m).1).1,
     (dispatch os1 i e m).2 ++ (dispatch os2 (i + length os1) e (dispatch os1 i e m).1).2).
Proof.
  revert i m. induction os1 as [|o os1 IH]; intros i m; cbn.
  - rewrite Nat.add_0_r. by destruct (dispatch os2 i e m).
  - replace (i + S (length os1))%nat with (S i + length os1)%nat by lia.
    destruct (Observer.cond o e m).
    + rewrite IH. by destruct (dispatch os1 (S i) e _).
    + by rewrite IH.
Qed.

Lemma reach_snoc_le os o e m i :
  (i ≤ length os)%nat → reach (os ++ [o]) e m i = reach os e m i.
Proof. intros Hi. unfold reach. by rewrite take_app_le. Qed.

Lemma reach_all os e m : reach os e m (length os) = (dispatch os 0 e m).1.
Proof. unfold reach. by rewrite firstn_all. Qed.

Lemma dispatch_snoc os o e m :
  dispatch (os ++ [o]) 0 e m =
    let m' := (dispatch os 0 e m).1 in
    (if Observer.cond o e m' then Observer.handler o e m' else m',
     (dispatch os 0 e m).2 ++ (if Observer.cond o e m' then [length os] else [])).
Proof.
  rewrite dispatch_app. cbn. by destruct (Observer.cond o e _).
Qed.

(** The positions [dispatch] reports are those of the observers whose
    condition held when the loop reached them. *)
Lemma dispatch_fired_iff os e m i :
  i ∈ (dispatch os 0 e m).2
  ↔ ∃ o, os !! i = Some o ∧ Observer.cond o e (reach os e m i) = true.
Proof.
  revert i. induction os as [|o os IH] using rev_ind; intros i.
  - cbn. rewrite elem_of_nil. split; [done|]. by intros (o & ? & _).
  - rewrite dispatch_snoc. cbn zeta. cbn [snd]. rewrite elem_of_app, IH.
    rewrite <-reach_all. split.
    + intros [(o' & Ho' & Hc)|Hi].
      * exists o'. pose proof (lookup_lt_Some _ _ _ Ho').
        rewrite lookup_app_l, reach_snoc_le by lia. done.
      * destruct (Observer.cond o e (reach os e m (length os))) eqn:Hc;
          [|by apply elem_of_nil in Hi].
        apply list_elem_of_singleton in Hi as ->. exists o.
        rewrite reach_snoc_le by lia. split; [|done].
        rewrite lookup_app_r, Nat.sub_diag by lia. done.
    + intros (o' & Ho' & Hc).
      destruct (decide (i < length os)%nat) as [Hlt|Hge].
      * left. exists o'. rewrite lookup_app_l in Ho' by done.
        rewrite reach_snoc_le in Hc by lia. done.
      * right. pose proof (lookup_lt_Some _ _ _ Ho') as Hlen.
        rewrite length_app in Hlen. cbn in Hlen.
        assert (i = length os) as -> by lia.
        rewrite lookup_app_r, Nat.sub_diag in Ho' by lia. injection Ho' as <-.
        rewrite reach_snoc_le in Hc by lia. rewrite Hc. by left.
Qed.

Lemma dispatch_fired_lt os e m i :
  i ∈ (dispatch os 0 e m).2 → (i < length os)%nat.
Proof.
  rewrite dispatch_fired_iff. intros (o & Ho & _). by eapply lookup_lt_Some.
Qed.

(** ... and they come in increasing order, each once. *)
Lemma dispatch_fired_sorted os e m :
  StronglySorted lt (dispatch os 0 e m).2.
Proof.
  induction os as [|o os IH] using rev_ind; [constructor|].
  rewrite dispatch_snoc. cbn zeta. cbn [snd].
  apply StronglySorted_app_2; [ | done | ].
  - intros i j Hi Hj. apply dispatch_fired_lt in Hi.
    destruct (Observer.cond o e _); [|by apply elem_of_nil in Hj].
    apply list_elem_of_singleton in Hj as ->. done.
  - destruct (Observer.cond o e _); repeat constructor.
Qed.

Lemma reach_step os e m i o :
  os !! i = Some o →
  reach os e m (S i) =
    if Observer.cond o e (reach os e m i)
    then Observer.handler o e (reach os e m i)
    else reach os e m i.
Proof.
  intros Ho. unfold reach. rewrite (take_S_r _ _ _ Ho), dispatch_snoc. done.
Qed.

(** ** Emission *)

Section Emission.

Variable timeNow : nat → Z.

Lemma load_emitStart a m :
  load (emitStart timeNow a m) a =
    Event.set_closed true
      (Event.set_emittedAt (timeNow (nowCalls m)) (load m a)).
Proof. unfold emitStart. by mem_norm. Qed.

Lemma Event_Emit_open hold a ca s :
  Event.closed (load (mem s) a) = false →
  Event.c (load (mem s) a) = Some ca →
  let os := Client.observers (clients s !!! ca) in
  let m' := (dispatch os 0 a (emitStart timeNow a (mem s))).1 in
  Event_Emit timeNow hold (Some a) s =
    Some (Some a,
          mkState (if held hold then m' else poolPut a m') (clients s)
                  (fired s ++ ((λ i, (a, i)) <$> (dispatch os 0 a (emitStart timeNow a (mem s))).2))).
Proof.
  intros Hopen Hc. cbn zeta. unfold Event_Emit. rewrite Hopen.
  cbn [time_Now]. fold (emitStart timeNow a (mem s)).
  rewrite load_emitStart. cbn [Event.c Event.set_closed Event.set_emittedAt].
  rewrite Hc. by destruct (dispatch _ 0 a _).
Qed.

Lemma Event_Emit_closed hold a s :
  Event.closed (load (mem s) a) = true →
  Event_Emit timeNow hold (Some a) s = Some (Some a, s).
Proof. intros Hclosed. unfold Event_Emit. by rewrite Hclosed. Qed.

(** Handlers that do not reopen the event leave it closed at the end of the
    loop. *)
Lemma dispatch_keeps_closed os i a m :
  (∀ o m, o ∈ os → Event.closed (load m a) = true →
          Event.closed (load (Observer.handler o a m) a) = true) →
  Event.closed (load m a) = true →
  Event.closed (load (dispatch os i a m).1 a) = true.
Proof.
  revert i m. induction os as [|o os IH]; intros i m Hkeep Hclosed; [done|].
  cbn. assert (∀ o' m', o' ∈ os → Event.closed (load m' a) = true →
                 Event.closed (load (Observer.handler o' a m') a) = true) as Hkeep'.
  { intros o' m' Ho'. apply Hkeep. by right. }
  destruct (Observer.cond o a m).
  - specialize (IH (S i) (Observer.handler o a m) Hkeep'
                   (Hkeep o m ltac:(by left) Hclosed)).
    by destruct (dispatch os (S i) a _).
  - by apply IH.
Qed.

(** C3: one [Emit] of an open event runs the handler of an observer of the
    event's client exactly when that observer's condition holds for the event
    at the observer's turn, and the handlers run in the order in which the
    observers were registered, each at most once. *)
Theorem Emit_fires_matching_observers_in_order hold a ca s :
  Event.closed (load (mem s) a) = false →
  Event.c (load (mem s) a) = Some ca →
  let os := Client.observers (clients s !!! ca) in
  let m0 := emitStart timeNow a (mem s) in
  ∃ s' tr,
    Event_Emit timeNow hold (Some a) s = Some (Some a, s')
    ∧ fired s' = fired s ++ ((λ i, (a, i)) <$> tr)
    ∧ (∀ i o, os !! i = Some o →
         (i ∈ tr ↔ Observer.cond o a (reach os a m0 i) = true))
    ∧ (∀ i, i ∈ tr → is_Some (os !! i))
    ∧ StronglySorted lt tr
    ∧ (∀ i o, os !! i = Some o →
         reach os a m0 (S i) =
           if Observer.cond o a (reach os a m0 i)
           then Observer.handler o a (reach os a m0 i)
           else reach os a m0 i)
    ∧ mem s' =
        if held hold then reach os a m0 (length os)
        else poolPut a (reach os a m0 (length os)).
Proof.
  intros Hopen Hc. cbn zeta.
  eexists _, _. split; [by apply Event_Emit_open|]. cbn [fired mem].
  split_and!.
  - done.
  - intros i o Ho. rewrite dispatch_fired_iff. split.
    + intros (o' & Ho' & Hcond). congruence.
    + intros Hcond. eauto.
  - intros i (o & Ho & _)%dispatch_fired_iff. eauto.
  - apply dispatch_fired_sorted.
  - intros i o Ho. by apply reach_step.
  - by rewrite reach_all.
Qed.

(** C2 (amended): emitting an open event twice runs one pass over the
    observers of its client, provided no handler reopens the event.  The
    first call closes the event and runs, in registration order and once
    each, the handlers of exactly the observers whose condition holds at
    their turn; the second finds the event closed, notifies nobody and
    returns it with the state untouched.  [Emit] on nil returns nil. *)
Theorem Emit_twice_dispatches_once hold hold' a ca s :
  Event.closed (load (mem s) a) = false →
  Event.c (load (mem s) a) = Some ca →
  let os := Client.observers (clients s !!! ca) in
  let m0 := emitStart timeNow a (mem s) in
  (∀ o m, o ∈ os → Event.closed (load m a) = true →
          Event.closed (load (Observer.handler o a m) a) = true) →
  (∃ s1 tr,
     Event_Emit timeNow hold (Some a) s = Some (Some a, s1)
     ∧ fired s1 = fired s ++ ((λ i, (a, i)) <$> tr)
     ∧ (∀ i o, os !! i = Some o →
          (i ∈ tr ↔ Observer.cond o a (reach os a m0 i) = true))
     ∧ (∀ i, i ∈ tr → is_Some (os !! i))
     ∧ StronglySorted lt tr
     ∧ (∀ i o, os !! i = Some o →
          reach os a m0 (S i) =
            if Observer.cond o a (reach os a m0 i)
            then Observer.handler o a (reach os a m0 i)
            else reach os a m0 i)
     ∧ mem s1 =
         (if held hold then reach os a m0 (length os)
          else poolPut a (reach os a m0 (length os)))
     ∧ Event.closed (load (mem s1) a) = true
     ∧ Event_Emit timeNow hold' (Some a) s1 = Some (Some a, s1))
  ∧ Event_Emit timeNow hold None s = Some (None, s).
Proof.
  intros Hopen Hc os m0 Hkeep. split; [|done].
  eexists _, _. split; [by apply Event_Emit_open|]. cbn [fired mem].
  fold os. fold m0.
  assert (Event.closed
            (load (if held hold
                   then (dispatch os 0 a m0).1
                   else poolPut a (dispatch os 0 a m0).1) a)
          = true) as Hclosed.
  { assert (Event.closed (load (dispatch os 0 a m0).1 a) = true) as Hd.
    { apply dispatch_keeps_closed; [done|]. unfold m0. by rewrite load_emitStart. }
    by destruct (held hold). }
  split_and!.
  - done.
  - intros i o Ho. rewrite dispatch_fired_iff. split.
    + intros (o' & Ho' & Hcond). congruence.
    + intros Hcond. eauto.
  - intros i (o & Ho & _)%dispatch_fired_iff. eauto.
  - apply dispatch_fired_sorted.
  - intros i o Ho. by apply reach_step.
  - by rewrite reach_all.
  - done.
  - by apply Event_Emit_closed.
Qed.

End Emission.

(** ** Observer constructors *)

(** C6: the condition of a by-level observer with threshold [T] holds for an
    event exactly when the event's level is at most [T], so that its handler
    runs for levels up to [T] and not above; with [T = LevelWarn] it runs for
    Trace, Debug, Info and Warn and not for Error, Fatal and Panic. *)
Theorem LevelObserver_fires_at_or_below T h e m :
  let o := LevelObserver T h in
  let l := Event.level (load m e) in
  (Observer.cond o e m = true ↔ l ≤ T)
  ∧ (Observer.cond o e m = false ↔ T < l)
  ∧ ((dispatch [o] 0 e m).2 = [0%nat] ↔ l ≤ T)
  ∧ ((dispatch [o] 0 e m).2 = [] ↔ T < l)
  ∧ (T = LevelWarn →
     (l ∈ [LevelTrace; LevelDebug; LevelInfo; LevelWarn] →
      Observer.cond o e m = true)
     ∧ (l ∈ [LevelError; LevelFatal; LevelPanic] →
        Observer.cond o e m = false)).
Proof.
  cbn zeta. cbn [LevelObserver Observer.cond dispatch].
  destruct (Z.leb_spec (Event.level (load m e)) T) as [Hle|Hgt]; cbn.
  - split_and!; try (split; intros; (done || lia)).
    intros ->. split; [done|]. revert Hle.
    unfold LevelWarn, LevelError, LevelFatal, LevelPanic.
    rewrite !elem_of_cons, elem_of_nil. lia.
  - split_and!; try (split; intros; (done || lia)).
    intros ->. split; [|done]. revert Hgt.
    unfold LevelWarn, LevelTrace, LevelDebug, LevelInfo.
    rewrite !elem_of_cons, elem_of_nil. lia.
Qed.

(** ** The standard sink *)

Lemma hasLogger_loggers os :
  existsb (λ o, bool_decide (Observer.id o = "logger")) os = true
  ↔ loggers os ≠ [].
Proof.
  unfold loggers. induction os as [|o os IH]; cbn; [done|].
  case_bool_decide as Hid; cbn.
  - rewrite decide_True by done. done.
  - rewrite decide_False by done. done.
Qed.

Lemma WithStandardLogger_present ca s :
  loggers (Client.observers (clients s !!! ca)) ≠ [] →
  Client_WithStandardLogger (Some ca) s = (Some ca, s).
Proof.
  intros Hp%hasLogger_loggers. unfold Client_WithStandardLogger. by rewrite Hp.
Qed.

Lemma WithStandardLogger_absent ca s :
  loggers (Client.observers (clients s !!! ca)) = [] →
  let r := Client_WithStandardLogger (Some ca) s in
  r.1 = Some ca
  ∧ Client.observers (clients r.2 !!! ca) =
      Client.observers (clients s !!! ca) ++ [loggerObserver]
  ∧ Client.level (clients r.2 !!! ca) = Client.level (clients s !!! ca)
  ∧ mem r.2 = mem s ∧ fired r.2 = fired s.
Proof.
  intros Ha. cbn zeta. unfold Client_WithStandardLogger.
  destruct (existsb _ _) eqn:Hex.
  { apply hasLogger_loggers in Hex. done. }
  cbn. rewrite lookup_total_insert_eq. done.
Qed.

(** C8: attaching the standard sink any number of times (at least once)
    leaves exactly one observer with id ["logger"], for a client that had at
    most one to begin with (every client the package builds: only this method
    gives an observer that id).  The calls after the first add nothing, and a
    call on a client that already has the logger adds nothing. *)
Theorem WithStandardLogger_idempotent ca s n :
  let attach := λ s, (Client_WithStandardLogger (Some ca) s).2 in
  let obs := λ s, Client.observers (clients s !!! ca) in
  (length (loggers (obs s)) ≤ 1)%nat →
  length (loggers (obs (Nat.iter (S n) attach s))) = 1%nat
  ∧ Nat.iter (S n) attach s = attach s
  ∧ (loggers (obs s) ≠ [] → attach s = s)
  ∧ (loggers (obs s) = [] → obs (attach s) = obs s ++ [loggerObserver])
  ∧ (Client_WithStandardLogger (Some ca) s).1 = Some ca
  ∧ Client_WithStandardLogger None s = (None, s).
Proof.
  intros attach obs Hle. subst obs. cbn beta in *.
  assert (loggers (Client.observers (clients (attach s) !!! ca)) ≠ []
          ∧ length (loggers (Client.observers (clients (attach s) !!! ca))) = 1%nat)
    as [Hne Hone].
  { unfold attach.
    destruct (loggers (Client.observers (clients s !!! ca))) as [|o l] eqn:Hl.
    - destruct (WithStandardLogger_absent ca s Hl) as (_ & -> & _).
      unfold loggers in *. rewrite filter_app, Hl. done.
    - rewrite WithStandardLogger_present by (by rewrite Hl).
      cbn [snd]. rewrite Hl. split; [done|].
      destruct l; [done | cbn in Hle; lia]. }
  assert (∀ k, Nat.iter (S k) attach s = attach s) as Hiter.
  { induction k as [|k IH]; [done|].
    change (Nat.iter (S (S k)) attach s) with (attach (Nat.iter (S k) attach s)).
    rewrite IH. unfold attach at 1. by rewrite WithStandardLogger_present. }
  rewrite Hiter. split_and!; try done.
  - intros Hp. unfold attach. by rewrite WithStandardLogger_present.
  - intros Ha. unfold attach.
    by destruct (WithStandardLogger_absent ca s Ha) as (_ & -> & _).
  - unfold Client_WithStandardLogger. by destruct (negb _).
Qed.

(** ** Frame lemmas for the handlers used below *)

Lemma load_loggerHandler e m e' : load (loggerHandler e m) e' = load m e'.
Proof. unfold load. by destruct (loggerHandler_maps e m) as [-> _]. Qed.

Lemma closed_retag e m :
  Event.closed (load (retag e m) e) = Event.closed (load m e).
Proof. unfold retag. by rewrite load_assign. Qed.

Lemma stateOpenEvent_observers :
  Client.observers (clients stateOpenEvent !!! 0%nat) =
    [LevelObserver LevelWarn retag; loggerObserver].
Proof. reflexivity. Qed.

(** Only [WithStandardLogger] makes an observer with the reserved id: the
    public constructors leave the id empty, and a new client has no
    observers. *)
Lemma loggers_public_constructors h topic level :
  loggers [WildcardObserver h; TopicObserver topic h; LevelObserver level h] = [].
Proof. reflexivity. Qed.

Lemma New_no_options_no_logger s :
  let r := New [] s in
  ∃ ca, r.1 = Some ca ∧ loggers (Client.observers (clients r.2 !!! ca)) = [].
Proof.
  cbn. eexists. split; [done|]. by rewrite lookup_total_insert_eq.
Qed.

(** C7 (what the code does): a child made from a parent that was already
    released, when the pool hands the parent's own instance back.  The parent
    has a client that accepts the level, and its id is ["0"]; the child is
    the parent's instance, and its [parentID] is ["1"], the id this creation
    gave it, not the id the parent had: [newChildEvent] reads [e.id] after
    [newEvent] has overwritten it. *)
Example newChildEvent_of_released_parent :
  let r := newChildEvent exampleId exampleNow (Some 0%nat) LevelError "child"
                         (Some 0%nat) statePooledEvent in
  Event.c (load (mem statePooledEvent) 0%nat) = Some 0%nat
  ∧ Client.level (clients statePooledEvent !!! 0%nat) ≤ LevelError
  ∧ eventPool (mem statePooledEvent) = [0%nat]
  ∧ Event.id (load (mem statePooledEvent) 0%nat) = "0"
  ∧ r.1 = Some 0%nat
  ∧ Event.id (load (mem r.2) 0%nat) = "1"
  ∧ Event.parentID (load (mem r.2) 0%nat) = "1"
  ∧ Event.parentID (load (mem r.2) 0%nat)
    ≠ Event.id (load (mem statePooledEvent) 0%nat).
Proof. vm_compute. split_and!; done. Qed.

(** ** Instances of the statements *)

Lemma newEvent_nil_iff_filtered_witness :
  Client.level (clients stateTwoObservers !!! 0%nat) = LevelInfo
  ∧ (newEvent exampleId exampleNow None LevelDebug "m" (Some 0%nat)
       stateTwoObservers).1 = None
  ∧ (newEvent exampleId exampleNow None LevelFatal "m" (Some 0%nat)
       stateTwoObservers).1 ≠ None.
Proof.
  assert (Client.level (clients stateTwoObservers !!! 0%nat) = LevelInfo) as HInfo
    by reflexivity.
  split; [exact HInfo|]. split.
  - destruct (newEvent_nil_iff_filtered exampleId exampleNow None LevelDebug "m"
                (Some 0%nat) stateTwoObservers) as (_ & _ & H).
    destruct (H 0%nat eq_refl HInfo) as [Hnil _]. apply Hnil. by repeat constructor.
  - destruct (newEvent_nil_iff_filtered exampleId exampleNow None LevelFatal "m"
                (Some 0%nat) stateTwoObservers) as (_ & _ & H).
    destruct (H 0%nat eq_refl HInfo) as [_ Hsome]. apply Hsome. by repeat constructor.
Defined.

Lemma newEvent_resets_every_field_witness :
  Client.level (clients statePooledEvent !!! 0%nat) ≤ LevelWarn
  ∧ ∃ e s',
      newEvent exampleId exampleNow (Some 0%nat) LevelWarn "again" (Some 0%nat)
               statePooledEvent = (Some e, s')
      ∧ e = 0%nat
      ∧ Event.closed (load (mem s') e) = false
      ∧ Event.emittedAt (load (mem s') e) = 0
      ∧ Event.id (load (mem s') e) = "1"
      ∧ mapOf (mem s') (Event.fields (load (mem s') e)) = ∅
      ∧ Event.id (load (mem s') e) ≠ Event.id (load (mem statePooledEvent) 0%nat).
Proof.
  assert (Client.level (clients statePooledEvent !!! 0%nat) ≤ LevelWarn) as Hle
    by (by vm_compute).
  split; [exact Hle|].
  destruct (newEvent_resets_every_field exampleId exampleNow (Some 0%nat)
              LevelWarn "again" 0%nat statePooledEvent Hle)
    as (e & s' & Hnew & fs & Hev & _ & Hfs & _ & Hfreshid).
  assert (0 < idCalls (mem statePooledEvent))%nat as Hcalls
    by (vm_compute; lia).
  pose proof (Hfreshid pretty_nat_inj 0%nat Hcalls) as Hdiff.
  exists e, s'. split; [exact Hnew|]. rewrite Hev in *. cbn.
  rewrite lookup_total_alt, Hfs. cbn.
  assert ((newEvent exampleId exampleNow (Some 0%nat) LevelWarn "again"
             (Some 0%nat) statePooledEvent).1 = Some 0%nat) as H0
    by (vm_compute; reflexivity).
  pose proof (eq_trans (eq_sym (f_equal fst Hnew)) H0) as He.
  split; [injection He as He'; exact He'|].
  split; [reflexivity|]. split; [reflexivity|].
  split; [vm_compute; reflexivity |]. split; [reflexivity|].
  exact Hdiff.
Defined.

Lemma Event_Fields_overwrites_by_key_witness :
  let F : Fields := {[ "a" := AnyInt 2; "b" := AnyInt 3 ]} in
  let r := Event_Fields F (Some 0%nat) (mem stateOpenEvent) in
  mapOf (mem stateOpenEvent) (Event.fields (load (mem stateOpenEvent) 0%nat))
    = {[ "a" := AnyInt 1 ]}
  ∧ F !! "a" = Some (AnyInt 2)
  ∧ mapOf r.2 (Event.fields (load r.2 0%nat)) !! "a" = Some (AnyInt 2)
  ∧ mapOf r.2 (Event.fields (load r.2 0%nat)) = F.
Proof.
  intros F r.
  assert (mapOf (mem stateOpenEvent)
            (Event.fields (load (mem stateOpenEvent) 0%nat))
          = {[ "a" := AnyInt 1 ]}) as Hold by (by vm_compute).
  assert (F !! "a" = Some (AnyInt 2)) as Ha by (by vm_compute).
  destruct (Event_Fields_overwrites_by_key F 0%nat (mem stateOpenEvent))
    as (_ & Hnew & Hin & _).
  split; [exact Hold|]. split; [exact Ha|]. split.
  - exact (Hin "a" (AnyInt 2) Ha).
  - unfold r. rewrite Hnew, Hold. by vm_compute.
Defined.

Lemma loggerHandler_aliases_event_fields_witness :
  mapOf memWithParent (Event.fields (load memWithParent 0%nat)) ≠ ∅
  ∧ Event.parentID (load memWithParent 0%nat) ≠ ""
  ∧ mapOf (loggerHandler 0%nat memWithParent)
          (Event.fields (load (loggerHandler 0%nat memWithParent) 0%nat))
      !! "parentID" = Some (AnyString "p-1").
Proof.
  assert (mapOf memWithParent (Event.fields (load memWithParent 0%nat)) ≠ ∅)
    as Hne by (by vm_compute).
  assert (Event.parentID (load memWithParent 0%nat) ≠ "") as Hpid
    by (by vm_compute).
  split; [exact Hne|]. split; [exact Hpid|].
  destruct (loggerHandler_aliases_event_fields 0%nat memWithParent) as (_ & H & _).
  rewrite (H Hne Hpid). apply lookup_insert_eq.
Defined.

Lemma LevelObserver_fires_at_or_below_witness :
  Event.level (load (mem stateOpenEvent) 0%nat) = LevelError
  ∧ Observer.cond (LevelObserver LevelWarn retag) 0%nat (mem stateOpenEvent)
    = false
  ∧ Observer.cond (LevelObserver LevelFatal retag) 0%nat (mem stateOpenEvent)
    = true.
Proof.
  assert (Event.level (load (mem stateOpenEvent) 0%nat) = LevelError) as Hl
    by reflexivity.
  split; [exact Hl|]. split.
  - destruct (LevelObserver_fires_at_or_below LevelWarn retag 0%nat
                (mem stateOpenEvent)) as (_ & _ & _ & _ & H).
    destruct (H eq_refl) as [_ Hoff]. apply Hoff. rewrite Hl.
    by repeat constructor.
  - destruct (LevelObserver_fires_at_or_below LevelFatal retag 0%nat
                (mem stateOpenEvent)) as (H & _).
    apply H. rewrite Hl. by vm_compute.
Defined.

Lemma WithStandardLogger_idempotent_witness :
  let attach := λ s, (Client_WithStandardLogger (Some 0%nat) s).2 in
  (length (loggers (Client.observers (clients stateLevelNone !!! 0%nat))) ≤ 1)%nat
  ∧ length (loggers (Client.observers
                       (clients (attach (attach stateLevelNone)) !!! 0%nat)))
    = 1%nat.
Proof.
  intros attach.
  assert (length (loggers (Client.observers (clients stateLevelNone !!! 0%nat)))
          ≤ 1)%nat as Hle by (vm_compute; lia).
  split; [exact Hle|].
  destruct (WithStandardLogger_idempotent 0%nat stateLevelNone 1 Hle) as (H & _).
  exact H.
Defined.

Lemma Emit_fires_matching_observers_in_order_witness :
  Event.closed (load (mem stateOpenEvent) 0%nat) = false
  ∧ Event.c (load (mem stateOpenEvent) 0%nat) = Some 0%nat
  ∧ ∃ s' tr,
      Event_Emit exampleNow [] (Some 0%nat) stateOpenEvent = Some (Some 0%nat, s')
      ∧ fired s' = fired stateOpenEvent ++ ((λ i, (0%nat, i)) <$> tr)
      ∧ (1%nat ∈ tr)
      ∧ (0%nat ∉ tr).
Proof.
  assert (Event.closed (load (mem stateOpenEvent) 0%nat) = false) as Hopen
    by reflexivity.
  assert (Event.c (load (mem stateOpenEvent) 0%nat) = Some 0%nat) as Hc
    by reflexivity.
  split; [exact Hopen|]. split; [exact Hc|].
  destruct (Emit_fires_matching_observers_in_order exampleNow [] 0%nat 0%nat
              stateOpenEvent Hopen Hc)
    as (s' & tr & Hemit & Hfired & Hiff & _).
  exists s', tr. split; [exact Hemit|]. split; [exact Hfired|]. split.
  - apply (Hiff 1%nat loggerObserver); reflexivity.
  - intros H0.
    apply (Hiff 0%nat (LevelObserver LevelWarn retag) eq_refl) in H0.
    by vm_compute in H0.
Defined.

Lemma Emit_twice_dispatches_once_witness :
  Event.closed (load (mem stateOpenEvent) 0%nat) = false
  ∧ Event.c (load (mem stateOpenEvent) 0%nat) = Some 0%nat
  ∧ ∃ s1,
      Event_Emit exampleNow [] (Some 0%nat) stateOpenEvent = Some (Some 0%nat, s1)
      ∧ Event_Emit exampleNow [] (Some 0%nat) s1 = Some (Some 0%nat, s1).
Proof.
  assert (Event.closed (load (mem stateOpenEvent) 0%nat) = false) as Hopen
    by reflexivity.
  assert (Event.c (load (mem stateOpenEvent) 0%nat) = Some 0%nat) as Hc
    by reflexivity.
  assert (∀ o m, o ∈ Client.observers (clients stateOpenEvent !!! 0%nat) →
            Event.closed (load m 0%nat) = true →
            Event.closed (load (Observer.handler o 0%nat m) 0%nat) = true)
    as Hkeep.
  { intros o m. rewrite stateOpenEvent_observers.
    rewrite !elem_of_cons, elem_of_nil. intros [->|[->|[]]] Hclosed;
      cbn [Observer.handler LevelObserver loggerObserver].
    - by rewrite closed_retag.
    - by rewrite load_loggerHandler. }
  split; [exact Hopen|]. split; [exact Hc|].
  destruct (Emit_twice_dispatches_once exampleNow [] [] 0%nat 0%nat
              stateOpenEvent Hopen Hc Hkeep)
    as [(s1 & tr & Hfirst & _ & _ & _ & _ & _ & _ & _ & Hsecond) _].
  exists s1. split; [exact Hfirst | exact Hsecond].
Defined.


(** * Further properties *)

(** ** Levels *)

Lemma Level_String_cases l :
  (l < LevelTrace ∨ LevelPanic < l) ∧ Level_String l = ""
  ∨ l = LevelTrace ∧ Level_String l = "trace"
  ∨ l = LevelDebug ∧ Level_String l = "debug"
  ∨ l = LevelInfo ∧ Level_String l = "info"
  ∨ l = LevelWarn ∧ Level_String l = "warn"
  ∨ l = LevelError ∧ Level_String l = "error"
  ∨ (l = LevelFatal ∨ l = LevelPanic) ∧ Level_String l = "fatal".
Proof.
  unfold Level_String, LevelNone, LevelTrace, LevelDebug, LevelInfo, LevelWarn,
    LevelError, LevelFatal, LevelPanic.
  destruct (Z.eqb_spec l 1) as [->|?]; [cbn; naive_solver|].
  destruct (Z.eqb_spec l 2) as [->|?]; [cbn; naive_solver|].
  destruct (Z.eqb_spec l 3) as [->|?]; [cbn; naive_solver|].
  destruct (Z.eqb_spec l 4) as [->|?]; [cbn; naive_solver|].
  destruct (Z.eqb_spec l 5) as [->|?]; [cbn; naive_solver|].
  destruct (Z.eqb_spec l 6) as [->|?]; [cbn; naive_solver|].
  destruct (Z.eqb_spec l 7) as [->|?]; [cbn; naive_solver|].
  left. split; [lia | by destruct (l =? 0)].
Qed.

(** X1: [Level.String] renders a level as the empty text exactly when it is not
    one of Trace to Panic, and two of those levels render alike only when
    they are equal or are Fatal and Panic. *)
Theorem Level_String_empty_or_distinct l1 l2 :
  (Level_String l1 = "" ↔ l1 < LevelTrace ∨ LevelPanic < l1)
  ∧ (LevelTrace ≤ l1 ≤ LevelPanic →
     Level_String l1 = Level_String l2 →
     l1 = l2 ∨ (l1 = LevelFatal ∧ l2 = LevelPanic)
             ∨ (l1 = LevelPanic ∧ l2 = LevelFatal)).
Proof.
  split.
  - destruct (Level_String_cases l1)
      as [[? ->]|[[-> ->]|[[-> ->]|[[-> ->]|[[-> ->]|[[-> ->]|[[->| ->] ->]]]]]]];
      unfold LevelTrace, LevelDebug, LevelInfo, LevelWarn, LevelError,
        LevelFatal, LevelPanic in *;
      (split; [intros; (done || lia) | intros; (done || lia)]).
  - intros Hreal Heq.
    destruct (Level_String_cases l1)
      as [[? H1]|[[-> H1]|[[-> H1]|[[-> H1]|[[-> H1]|[[-> H1]|[[->| ->] H1]]]]]]];
      rewrite H1 in Heq;
      destruct (Level_String_cases l2)
        as [[? H2]|[[-> H2]|[[-> H2]|[[-> H2]|[[-> H2]|[[-> H2]|[[->| ->] H2]]]]]]];
      rewrite H2 in Heq; try discriminate Heq;
      unfold LevelTrace, LevelDebug, LevelInfo, LevelWarn, LevelError,
        LevelFatal, LevelPanic in *;
      first [lia | by left | by right; left | by right; right].
Qed.

Lemma Level_String_empty_or_distinct_witness :
  LevelTrace ≤ LevelPanic ≤ LevelPanic
  ∧ Level_String LevelPanic = Level_String LevelFatal
  ∧ (LevelPanic = LevelFatal
     ∨ (LevelPanic = LevelFatal ∧ LevelFatal = LevelPanic)
     ∨ (LevelPanic = LevelPanic ∧ LevelFatal = LevelFatal)).
Proof.
  assert (LevelTrace ≤ LevelPanic ≤ LevelPanic) as Hreal by (vm_compute; split; discriminate).
  assert (Level_String LevelPanic = Level_String LevelFatal) as Heq by reflexivity.
  split; [exact Hreal|]. split; [exact Heq|].
  exact (proj2 (Level_String_empty_or_distinct LevelPanic LevelFatal) Hreal Heq).
Defined.

(** ** Observers *)

(** X2: a by-topic observer matches an event exactly when the event's topic is
    the observer's, so that after [e.Topic(t)] it matches when [t] is its
    topic and only then; dispatch over it alone runs its handler in that
    case and no other. *)
Theorem TopicObserver_matches_exact_topic t t' h a m :
  let o := TopicObserver t' h in
  let m' := (Event_Topic t (Some a) m).2 in
  (Observer.cond o a m = true ↔ Event.topic (load m a) = t')
  ∧ (Observer.cond o a m' = true ↔ t = t')
  ∧ (dispatch [o] 0 a m' = (h a m', [0%nat]) ↔ t = t')
  ∧ (dispatch [o] 0 a m' = (m', []) ↔ t ≠ t').
Proof.
  cbn zeta. cbn [TopicObserver Observer.cond Observer.handler dispatch Event_Topic snd].
  rewrite load_assign. cbn [Event.topic Event.set_topic].
  split; [apply bool_decide_eq_true|].
  split; [apply bool_decide_eq_true|].
  case_bool_decide as Ht; split; split; done.
Qed.

Lemma dispatch_wildcards hs i a m :
  dispatch (WildcardObserver <$> hs) i a m =
    (foldl (λ m h, h a m) m hs, seq i (length hs)).
Proof.
  revert i m. induction hs as [|h hs IH]; intros i m; [done|].
  cbn. by rewrite IH.
Qed.

(** X3: wildcard observers all run, one after the other in the order of the
    list, each on the memory the one before it left. *)
Theorem dispatch_wildcards_all_fire hs a m :
  dispatch (WildcardObserver <$> hs) 0 a m =
    (foldl (λ m h, h a m) m hs, seq 0 (length hs)).
Proof. apply dispatch_wildcards. Qed.

(** A property of memory that every handler of the list keeps holds at the
    end of the loop when it holds at its start. *)
Lemma dispatch_invariant (P : Mem → Prop) os i a m :
  (∀ o m, o ∈ os → P m → P (Observer.handler o a m)) →
  P m → P (dispatch os i a m).1.
Proof.
  revert i m. induction os as [|o os IH]; intros i m Hkeep HP; [done|].
  cbn. assert (∀ o' m', o' ∈ os → P m' → P (Observer.handler o' a m')) as Hkeep'.
  { intros o' m' Ho'. apply Hkeep. by right. }
  destruct (Observer.cond o a m).
  - specialize (IH (S i) (Observer.handler o a m) Hkeep'
                   (Hkeep o m ltac:(by left) HP)).
    by destruct (dispatch os (S i) a _).
  - by apply IH.
Qed.

(** ** More on emission *)

Section EmissionMore.

Variable timeNow : nat → Z.

(** X4: what [Emit] does before it reaches the observers.  On nil it
    returns nil, and on a closed event it returns the event, in both cases
    with the state untouched and nobody notified; on an open event that has
    no client it panics, at the dereference of [e.c] in the loop header. *)
Theorem Emit_guards_and_nil_client hold e s :
  (e = None → Event_Emit timeNow hold e s = Some (None, s))
  ∧ (∀ a, e = Some a → Event.closed (load (mem s) a) = true →
       Event_Emit timeNow hold e s = Some (Some a, s))
  ∧ (∀ a, e = Some a → Event.closed (load (mem s) a) = false →
       Event.c (load (mem s) a) = None →
       Event_Emit timeNow hold e s = None).
Proof.
  split_and!.
  - by intros ->.
  - intros a -> Hclosed. by apply Event_Emit_closed.
  - intros a -> Hopen Hc. unfold Event_Emit. rewrite Hopen. cbn [time_Now].
    fold (emitStart timeNow a (mem s)). rewrite load_emitStart.
    cbn [Event.c Event.set_closed Event.set_emittedAt]. by rewrite Hc.
Qed.

(** X5: emitting with hold and then evicting leaves the same state as emitting
    without hold: the release is the only thing hold puts off. *)
Theorem Emit_hold_then_Evict a ca s :
  Event.closed (load (mem s) a) = false →
  Event.c (load (mem s) a) = Some ca →
  ∃ s1,
    Event_Emit timeNow [true] (Some a) s = Some (Some a, s1)
    ∧ eventPool (mem s1) =
        eventPool (reach (Client.observers (clients s !!! ca)) a
                         (emitStart timeNow a (mem s))
                         (length (Client.observers (clients s !!! ca))))
    ∧ Event_Emit timeNow [] (Some a) s
      = Some (Some a, set_mem (Event_Evict (Some a)) s1).
Proof.
  intros Hopen Hc. eexists. split; [by apply Event_Emit_open|].
  cbn [held mem]. split; [by rewrite reach_all|].
  by rewrite (Event_Emit_open timeNow [] a ca s Hopen Hc).
Qed.

(** X6: when the handlers of the client leave the event alone, [Emit] changes
    two fields of it and no other: [emittedAt], set to the clock reading, and
    [closed], set to true. *)
Theorem Emit_stamps_and_closes hold a ca s :
  Event.closed (load (mem s) a) = false →
  Event.c (load (mem s) a) = Some ca →
  (∀ o m, o ∈ Client.observers (clients s !!! ca) →
          load (Observer.handler o a m) a = load m a) →
  ∃ s',
    Event_Emit timeNow hold (Some a) s = Some (Some a, s')
    ∧ load (mem s') a =
        Event.set_closed true
          (Event.set_emittedAt (timeNow (nowCalls (mem s))) (load (mem s) a))
    ∧ clients s' = clients s.
Proof.
  intros Hopen Hc Hframe. eexists. split; [by apply Event_Emit_open|].
  cbn [mem clients]. split; [|done].
  assert (load (dispatch (Client.observers (clients s !!! ca)) 0 a
                  (emitStart timeNow a (mem s))).1 a
          = load (emitStart timeNow a (mem s)) a) as Hd.
  { apply (dispatch_invariant
             (λ m, load m a = load (emitStart timeNow a (mem s)) a)); [|done].
    intros o m Ho Hm. by rewrite Hframe. }
  rewrite <-load_emitStart, <-Hd. by destruct (held hold).
Qed.

End EmissionMore.

(** ** Builder calls *)

(** The whole effect of [Fields] on memory. *)
Lemma Event_Fields_mem F a m :
  let r := Event_Fields F (Some a) m in
  let data := fresh (dom (maps m)) in
  r.1 = Some a
  ∧ events r.2 = <[a := Event.set_fields (Some data) (load m a)]> (events m)
  ∧ maps r.2 !!! data = F ∪ mapOf m (Event.fields (load m a))
  ∧ (∀ x, x ≠ data → maps r.2 !!! x = maps m !!! x)
  ∧ eventPool r.2 = eventPool m
  ∧ idCalls r.2 = idCalls m
  ∧ nowCalls r.2 = nowCalls m
  ∧ sink r.2 = sink m.
Proof.
  cbn zeta. unfold Event_Fields.
  pose proof (mapOf_makeFields m (Event.fields (load m a))) as Hsame.
  change (makeFields m) with
    (fresh (dom (maps m)), set_maps <[fresh (dom (maps m)) := ∅]> m) in *.
  cbn [fst snd] in *. set (data := fresh (dom (maps m))) in *.
  set (m1 := set_maps <[data := ∅]> m) in *.
  change (load m1 a) with (load m a). rewrite Hsame.
  set (old := mapOf m (Event.fields (load m a))).
  destruct (rangeInto_spec old data m1) as (Hd1 & Ho1 & He1 & Hp1 & Hi1 & Hn1 & Hs1).
  set (m2 := rangeInto old data m1) in *.
  destruct (rangeInto_spec F data m2) as (Hd2 & Ho2 & He2 & Hp2 & Hi2 & Hn2 & Hs2).
  set (m3 := rangeInto F data m2) in *.
  split_and!.
  - done.
  - unfold assign, load. cbn. by rewrite He2, He1.
  - cbn. rewrite Hd2, Hd1. unfold m1. cbn. rewrite lookup_total_insert_eq.
    by rewrite (right_id_L ∅ (∪)).
  - intros x Hx. cbn. rewrite Ho2, Ho1 by done. unfold m1. cbn.
    by rewrite lookup_total_insert_ne.
  - cbn. by rewrite Hp2, Hp1.
  - cbn. by rewrite Hi2, Hi1.
  - cbn. by rewrite Hn2, Hn1.
  - cbn. by rewrite Hs2, Hs1.
Qed.

Lemma load_insert_events a ev m m' e :
  events m' = <[a := ev]> (events m) →
  load m' e = if decide (a = e) then ev else load m e.
Proof.
  intros Hev. unfold load. rewrite Hev. destruct (decide (a = e)) as [->|Hne].
  - by rewrite lookup_total_insert_eq.
  - by rewrite lookup_total_insert_ne.
Qed.

Lemma builderFrame_refl a m : builderFrame a m m.
Proof. by repeat split. Qed.

Lemma builderFrame_trans a m1 m2 m3 :
  builderFrame a m1 m2 → builderFrame a m2 m3 → builderFrame a m1 m3.
Proof.
  intros ((? & ? & ? & ? & ?) & Ho1 & ? & ? & ? & ?)
         ((? & ? & ? & ? & ?) & Ho2 & ? & ? & ? & ?).
  repeat split; try congruence.
  intros e He. by rewrite Ho2, Ho1.
Qed.

Lemma builderFrame_assign a upd m :
  (∀ ev, sameIdentity (upd ev) ev) → builderFrame a m (assign a upd m).
Proof.
  intros Hupd. split; [rewrite load_assign; apply Hupd|].
  split; [|done]. intros e He. by rewrite load_assign_ne.
Qed.

Lemma builderFrame_Fields F a m : builderFrame a m (Event_Fields F (Some a) m).2.
Proof.
  destruct (Event_Fields_mem F a m) as (_ & Hev & _ & _ & Hp & Hi & Hn & Hs).
  split; [|split; [|done]].
  - rewrite (load_insert_events _ _ _ _ _ Hev), decide_True by done. by repeat split.
  - intros e He. by rewrite (load_insert_events _ _ _ _ _ Hev), decide_False.
Qed.

Lemma call_frame b a m :
  (call b (Some a) m).1 = Some a ∧ builderFrame a m (call b (Some a) m).2.
Proof.
  destruct b as [l|msg|t|p|F|k v|err];
    cbn [call Event_Level Event_Message Event_Topic Event_ParentID
         Event_Field Event_WithError fst snd].
  - split; [done | by apply builderFrame_assign].
  - split; [done | by apply builderFrame_assign].
  - split; [done | by apply builderFrame_assign].
  - split; [done | by apply builderFrame_assign].
  - split; [by destruct (Event_Fields_mem F a m) as (? & _)
           | apply builderFrame_Fields].
  - split; [by destruct (Event_Fields_mem {[k := v]} a m) as (? & _)
           | apply builderFrame_Fields].
  - split; [by destruct (Event_Fields_mem {["error" := AnyError err]} a m) as (? & _)
           | apply builderFrame_Fields].
Qed.

Lemma chain_cons b bs e m :
  chain (b :: bs) e m = chain bs (call b e m).1 (call b e m).2.
Proof. unfold chain. cbn. by destruct (call b e m). Qed.

(** X7: however long a chain of builder calls on an event is, it returns the
    event and leaves its id, client, closed flag and time stamps as they
    were; no other event, nor the pool, the providers or the sink, is
    touched.  In particular a builder never reopens a closed event and never
    changes whom an event belongs to. *)
Theorem chain_keeps_identity bs a m :
  (chain bs (Some a) m).1 = Some a
  ∧ Event.id (load (chain bs (Some a) m).2 a) = Event.id (load m a)
  ∧ Event.c (load (chain bs (Some a) m).2 a) = Event.c (load m a)
  ∧ Event.closed (load (chain bs (Some a) m).2 a) = Event.closed (load m a)
  ∧ Event.createdAt (load (chain bs (Some a) m).2 a) = Event.createdAt (load m a)
  ∧ Event.emittedAt (load (chain bs (Some a) m).2 a) = Event.emittedAt (load m a)
  ∧ (∀ e, e ≠ a → load (chain bs (Some a) m).2 e = load m e)
  ∧ eventPool (chain bs (Some a) m).2 = eventPool m
  ∧ sink (chain bs (Some a) m).2 = sink m.
Proof.
  assert ((chain bs (Some a) m).1 = Some a
          ∧ builderFrame a m (chain bs (Some a) m).2) as [Hr Hf].
  { revert m. induction bs as [|b bs IH]; intros m.
    - split; [done | apply builderFrame_refl].
    - rewrite chain_cons. destruct (call_frame b a m) as [-> Hb].
      destruct (IH (call b (Some a) m).2) as [-> Hc].
      split; [done|]. by eapply builderFrame_trans. }
  destruct Hf as ((? & ? & ? & ? & ?) & ? & ? & _ & _ & ?). by repeat split.
Qed.

Lemma chain_nil bs m : chain bs None m = (None, m).
Proof.
  induction bs as [|b bs IH]; [done|]. rewrite chain_cons.
  by destruct b; cbn; rewrite IH.
Qed.

Section Filtered.

Variable gonanoid : nat → string.
Variable timeNow : nat → Z.

(** X8: a refused creation makes the whole expression a no-op: the chain of
    builder calls on the nil result and the final [Emit] return nil and
    change nothing. *)
Theorem filtered_creation_chain_is_noop pick L msg ca bs hold s :
  L < Client.level (clients s !!! ca) →
  let r := newEvent gonanoid timeNow pick L msg (Some ca) s in
  r = (None, s)
  ∧ chain bs r.1 (mem r.2) = (None, mem s)
  ∧ Event_Emit timeNow hold (chain bs r.1 (mem r.2)).1
               (set_mem (λ _, (chain bs r.1 (mem r.2)).2) r.2)
    = Some (None, s).
Proof.
  intros Hlt. cbn zeta. rewrite newEvent_reject by done. cbn [fst snd].
  rewrite chain_nil. cbn. by destruct s.
Qed.

End Filtered.

(** ** More on field maps *)

Lemma Event_Fields_new F a m :
  mapOf (Event_Fields F (Some a) m).2
        (Event.fields (load (Event_Fields F (Some a) m).2 a))
  = F ∪ mapOf m (Event.fields (load m a)).
Proof.
  destruct (Event_Fields_mem F a m) as (_ & Hev & Hdata & _).
  rewrite (load_insert_events _ _ _ _ _ Hev), decide_True by done.
  cbn [Event.fields Event.set_fields mapOf]. exact Hdata.
Qed.

(** X9: [Field] sets one key and keeps the others: a lookup of the key gives the
    value just set, a lookup of any other key what it gave before.
    [WithError] does the same for the key ["error"]. *)
Theorem Event_Field_sets_one_key k v err a m :
  let old := mapOf m (Event.fields (load m a)) in
  let r := Event_Field k v (Some a) m in
  let new := mapOf r.2 (Event.fields (load r.2 a)) in
  let rE := Event_WithError err (Some a) m in
  new = <[k := v]> old
  ∧ new !! k = Some v
  ∧ (∀ k', k' ≠ k → new !! k' = old !! k')
  ∧ mapOf rE.2 (Event.fields (load rE.2 a)) = <["error" := AnyError err]> old.
Proof.
  cbn zeta. cbn [Event_Field Event_WithError]. rewrite !Event_Fields_new.
  rewrite <-!insert_union_singleton_l. split_and!; try done.
  - apply lookup_insert_eq.
  - intros k' Hk'. by apply lookup_insert_ne.
Qed.

(** X10: two merges in a row amount to one merge of the second map laid over the
    first; merging the same map twice is merging it once. *)
Theorem Event_Fields_twice F1 F2 a m :
  let fieldsOf := λ m, mapOf m (Event.fields (load m a)) in
  let m1 := (Event_Fields F1 (Some a) m).2 in
  let m2 := (Event_Fields F2 (Some a) m1).2 in
  fieldsOf m2 = (F2 ∪ F1) ∪ fieldsOf m
  ∧ fieldsOf m2 = fieldsOf (Event_Fields (F2 ∪ F1) (Some a) m).2
  ∧ (F1 = F2 → fieldsOf m2 = fieldsOf m1).
Proof.
  cbv beta zeta. rewrite !Event_Fields_new. split_and!.
  - by rewrite (assoc_L (∪)).
  - by rewrite (assoc_L (∪)).
  - intros ->. by rewrite (assoc_L (∪)), (idemp_L (∪)).
Qed.

(** X11: [Fields] builds the merged map in a map of its own: the event ends up
    with a map that was not allocated before, and no map that was allocated
    is written to, the one the event held before included. *)
Theorem Event_Fields_writes_new_map_only F a m :
  let r := Event_Fields F (Some a) m in
  ∃ data,
    Event.fields (load r.2 a) = Some data
    ∧ (data ∉ dom (maps m))
    ∧ (∀ x, x ∈ dom (maps m) → maps r.2 !!! x = maps m !!! x)
    ∧ (fieldsAllocated m a →
       mapOf r.2 (Event.fields (load m a)) = mapOf m (Event.fields (load m a))).
Proof.
  cbn zeta. destruct (Event_Fields_mem F a m) as (_ & Hev & _ & Hother & _).
  pose proof (is_fresh (dom (maps m))) as Hfresh.
  exists (fresh (dom (maps m))).
  rewrite (load_insert_events _ _ _ _ _ Hev), decide_True by done.
  assert (∀ x, x ∈ dom (maps m) →
            maps (Event_Fields F (Some a) m).2 !!! x = maps m !!! x) as Hkept.
  { intros x Hx. apply Hother. by intros ->. }
  split_and!; [done | done | done |].
  unfold fieldsAllocated. destruct (Event.fields (load m a)) as [fa|]; [|done].
  cbn [mapOf]. apply Hkept.
Qed.

Lemma Event_Fields_twice_witness :
  let fieldsOf := λ m, mapOf m (Event.fields (load m 0%nat)) in
  let F : Fields := {[ "b" := AnyInt 3 ]} in
  let m1 := (Event_Fields F (Some 0%nat) (mem stateOpenEvent)).2 in
  let m2 := (Event_Fields F (Some 0%nat) m1).2 in
  fieldsOf m2 = fieldsOf m1.
Proof.
  intros fieldsOf F m1 m2.
  destruct (Event_Fields_twice F F 0%nat (mem stateOpenEvent)) as (_ & _ & H).
  exact (H eq_refl).
Defined.

Lemma Event_Field_sets_one_key_witness :
  let r := Event_Field "b" (AnyInt 3) (Some 0%nat) (mem stateOpenEvent) in
  "a" ≠ "b"
  ∧ mapOf r.2 (Event.fields (load r.2 0%nat)) !! "a"
    = mapOf (mem stateOpenEvent)
            (Event.fields (load (mem stateOpenEvent) 0%nat)) !! "a".
Proof.
  intros r. assert ("a" ≠ "b") as Hne by discriminate.
  split; [exact Hne|].
  destruct (Event_Field_sets_one_key "b" (AnyInt 3) "" 0%nat (mem stateOpenEvent))
    as (_ & _ & H & _).
  exact (H "a" Hne).
Defined.

Lemma Event_Fields_writes_new_map_only_witness :
  let r := Event_Fields {[ "b" := AnyInt 3 ]} (Some 0%nat) (mem stateOpenEvent) in
  fieldsAllocated (mem stateOpenEvent) 0%nat
  ∧ mapOf r.2 (Event.fields (load (mem stateOpenEvent) 0%nat))
    = mapOf (mem stateOpenEvent) (Event.fields (load (mem stateOpenEvent) 0%nat)).
Proof.
  intros r.
  assert (fieldsAllocated (mem stateOpenEvent) 0%nat) as Halloc
    by (vm_compute; reflexivity).
  split; [exact Halloc|].
  destruct (Event_Fields_writes_new_map_only {[ "b" := AnyInt 3 ]} 0%nat
              (mem stateOpenEvent)) as (data & _ & _ & _ & H).
  exact (H Halloc).
Defined.


(** ** More on the standard logger *)

Lemma loggerHandler_sink e m :
  sink (loggerHandler e m) =
    if loggedLevel (Event.level (load m e))
    then sink m ++ [mkEntry (Event.level (load m e)) (loggedMessage (load m e))
                            (loggedFields m (load m e))]
    else sink m.
Proof.
  unfold loggerHandler, loggedLevel, loggedMessage, loggedFields.
  pose proof (mapOf_makeFields m (Event.fields (load m e))) as Hsame.
  pose proof (is_fresh (dom (maps m))) as Hfresh.
  cbn -[fresh mapOf] in *. mem_norm. rewrite Hsame.
  set (data := fresh (dom (maps m))) in *.
  set (ev := load m e) in *.
  assert (maps m !!! data = (∅ : Fields)) as Hdata.
  { rewrite lookup_total_alt. by rewrite (not_elem_of_dom_1 _ _ Hfresh). }
  assert (<[data := ∅]> (maps m)
            !!! (if 0 <? Z.of_nat (size (mapOf m (Event.fields ev)))
                 then default data (Event.fields ev) else data)
          = mapOf m (Event.fields ev)) as Htarget.
  { destruct (0 <? Z.of_nat (size (mapOf m (Event.fields ev)))) eqn:Hlen.
    - apply len_pos_iff in Hlen.
      destruct (Event.fields ev) as [fa|]; [|done]. cbn in *.
      apply lookup_total_insert_ne. intros <-. by rewrite Hdata in Hlen.
    - rewrite lookup_total_insert_eq. symmetry. apply map_size_empty_iff.
      apply Z.ltb_ge in Hlen. lia. }
  case_bool_decide as Hpid; rewrite ?load_mapSet, ?load_set_maps; fold ev;
    destruct (_ || _); cbn -[mapOf];
    rewrite ?lookup_total_insert_eq, ?Htarget; done.
Qed.

Lemma loggedLevel_iff l : loggedLevel l = true ↔ LevelTrace ≤ l ≤ LevelPanic.
Proof.
  unfold loggedLevel, LevelTrace, LevelDebug, LevelInfo, LevelWarn, LevelError,
    LevelFatal, LevelPanic.
  rewrite !orb_true_iff, !Z.eqb_eq. lia.
Qed.

(** X12: one run of the standard logger's handler forwards exactly one entry to
    the external logger when the event's level is one of Trace to Panic, at
    that level, with the topic in brackets before the message and the
    parent's id among the fields when they are set; for any other level
    ([LevelNone] included) it forwards nothing. *)
Theorem loggerHandler_forwards_one_entry e m :
  let ev := load m e in
  (LevelTrace ≤ Event.level ev ≤ LevelPanic →
   sink (loggerHandler e m) =
     sink m ++ [mkEntry (Event.level ev) (loggedMessage ev) (loggedFields m ev)])
  ∧ (Event.level ev < LevelTrace ∨ LevelPanic < Event.level ev →
     sink (loggerHandler e m) = sink m).
Proof.
  cbn zeta. rewrite loggerHandler_sink.
  destruct (loggedLevel (Event.level (load m e))) eqn:Hl.
  - apply loggedLevel_iff in Hl. split; [done | lia].
  - split; [|done]. intros Hreal%loggedLevel_iff. congruence.
Qed.

Lemma loggerHandler_forwards_one_entry_witness :
  LevelTrace ≤ Event.level (load memWithParent 0%nat) ≤ LevelPanic
  ∧ sink (loggerHandler 0%nat memWithParent) =
      sink memWithParent
      ++ [mkEntry LevelError "disk full"
                  {[ "a" := AnyInt 1; "parentID" := AnyString "p-1" ]}].
Proof.
  assert (LevelTrace ≤ Event.level (load memWithParent 0%nat) ≤ LevelPanic)
    as Hreal by (vm_compute; split; discriminate).
  split; [exact Hreal|].
  destruct (loggerHandler_forwards_one_entry 0%nat memWithParent) as [H _].
  rewrite (H Hreal). vm_compute. reflexivity.
Defined.

Lemma eventPool_loggerHandler e m :
  eventPool (loggerHandler e m) = eventPool m.
Proof.
  unfold loggerHandler. cbn -[fresh mapOf].
  case_bool_decide; destruct (_ || _); done.
Qed.

Section EndToEnd.

Variable gonanoid : nat → string.
Variable timeNow : nat → Z.

(** X13: on a client whose only observer is the standard logger, creating an
    event at an accepted level from Trace to Error (the levels at which the
    external logger returns) and emitting it forwards exactly one entry, with
    the level and the message of the creation and no fields, runs that one
    handler, closes the event and, unless held, puts it in the pool. *)
Theorem create_and_emit_logs_once pick hold L msg ca s :
  Client.observers (clients s !!! ca) = [loggerObserver] →
  Client.level (clients s !!! ca) ≤ L →
  LevelTrace ≤ L ≤ LevelError →
  ∃ e s1 s2,
    newEvent gonanoid timeNow pick L msg (Some ca) s = (Some e, s1)
    ∧ Event_Emit timeNow hold (Some e) s1 = Some (Some e, s2)
    ∧ sink (mem s2) = sink (mem s) ++ [mkEntry L msg ∅]
    ∧ fired s2 = fired s ++ [(e, 0%nat)]
    ∧ Event.closed (load (mem s2) e) = true
    ∧ eventPool (mem s2) =
        if held hold then eventPool (mem s1) else e :: eventPool (mem s1).
Proof.
  intros Hobs Hle Hreturns.
  assert (LevelTrace ≤ L ≤ LevelPanic) as Hreal
    by (unfold LevelTrace, LevelError, LevelPanic in *; lia).
  rewrite newEvent_accept by done.
  destruct (newEvent_mem_spec gonanoid timeNow pick L msg ca (mem s))
    as (_ & Hev & Hmaps & _ & _ & Hsink & _).
  set (e := (newEvent_mem gonanoid timeNow pick L msg ca (mem s)).1) in *.
  set (m1 := (newEvent_mem gonanoid timeNow pick L msg ca (mem s)).2) in *.
  set (s1 := set_mem (λ _, m1) s).
  assert (Event.closed (load (mem s1) e) = false) as Hopen by (cbn; by rewrite Hev).
  assert (Event.c (load (mem s1) e) = Some ca) as Hc by (cbn; by rewrite Hev).
  eexists e, s1, _. split; [done|].
  split; [by apply Event_Emit_open|].
  change (clients s1) with (clients s). rewrite Hobs.
  change (mem s1) with m1. cbn [dispatch loggerObserver Observer.cond Observer.handler].
  set (m0 := emitStart timeNow e m1).
  assert (load m0 e =
            Event.set_closed true
              (Event.set_emittedAt (timeNow (nowCalls m1)) (load m1 e))) as Hm0
    by apply load_emitStart.
  rewrite Hev in Hm0. unfold Event.set_closed, Event.set_emittedAt in Hm0.
  cbn in Hm0. cbn [fst snd mem fired].
  assert (sink (loggerHandler e m0) = sink (mem s) ++ [mkEntry L msg ∅]) as Hout.
  { rewrite loggerHandler_sink, Hm0. cbn [Event.level].
    rewrite (proj2 (loggedLevel_iff L) Hreal).
    unfold loggedMessage, loggedFields. cbn -[mapOf].
    change (sink m0) with (sink m1). rewrite Hsink. do 3 f_equal.
    rewrite bool_decide_false by (by intros H). cbn [mapOf].
    change (maps m0) with (maps m1). rewrite Hmaps.
    apply lookup_total_insert_eq. }
  split_and!.
  - by destruct (held hold).
  - done.
  - destruct (held hold); rewrite ?load_poolPut, load_loggerHandler, Hm0; done.
  - destruct (held hold); cbn [poolPut set_eventPool eventPool];
      by rewrite eventPool_loggerHandler.
Qed.

End EndToEnd.

Lemma create_and_emit_logs_once_witness :
  Client.observers (clients initState !!! 0%nat) = [loggerObserver]
  ∧ Client.level (clients initState !!! 0%nat) ≤ LevelWarn
  ∧ LevelTrace ≤ LevelWarn ≤ LevelError
  ∧ ∃ e s1 s2,
      newEvent exampleId exampleNow None LevelWarn "low disk" (Some 0%nat)
               initState = (Some e, s1)
      ∧ Event_Emit exampleNow [] (Some e) s1 = Some (Some e, s2)
      ∧ sink (mem s2) = [mkEntry LevelWarn "low disk" ∅].
Proof.
  assert (Client.observers (clients initState !!! 0%nat) = [loggerObserver])
    as Hobs by reflexivity.
  assert (Client.level (clients initState !!! 0%nat) ≤ LevelWarn) as Hle
    by (vm_compute; discriminate).
  assert (LevelTrace ≤ LevelWarn ≤ LevelError) as Hreal
    by (vm_compute; split; discriminate).
  split; [exact Hobs|]. split; [exact Hle|]. split; [exact Hreal|].
  destruct (create_and_emit_logs_once exampleId exampleNow None [] LevelWarn
              "low disk" 0%nat initState Hobs Hle Hreal)
    as (e & s1 & s2 & Hnew & Hemit & Hsink & _).
  exists e, s1, s2. split; [exact Hnew|]. split; [exact Hemit|]. exact Hsink.
Defined.

(** ** More on creation *)

Section CreationMore.

Variable gonanoid : nat → string.
Variable timeNow : nat → Z.

Lemma newEvent_mem_pool pick L msg ca m :
  eventPool (newEvent_mem gonanoid timeNow pick L msg ca m).2
  = eventPool (poolGet pick m).2.
Proof.
  unfold newEvent_mem. destruct (poolGet pick m) as [e m1].
  cbn -[load assign fresh]. by mem_norm.
Qed.

Lemma poolGet_pool_elem pick m x :
  x ∈ eventPool (poolGet pick m).2 → x ∈ eventPool m.
Proof.
  destruct (poolGet_cases pick m) as [(i & _ & _ & ->)|[_ ->]]; cbn; [|done].
  apply list_elem_of_delete_inv.
Qed.

Lemma poolGet_head a rest m :
  eventPool m = a :: rest →
  (poolGet (Some 0%nat) m).1 = a ∧ eventPool (poolGet (Some 0%nat) m).2 = rest.
Proof. intros Hp. unfold poolGet. cbn. rewrite Hp. cbn. by rewrite Hp. Qed.

(** X14: a creation takes its instance from the pool or allocates one: an event
    that is allocated and not in the pool is never the one handed out, and
    neither it, nor any allocated field map, nor any client is changed, and
    it is not in the pool afterwards either. *)
Theorem newEvent_spares_live_events pick L msg c s a :
  a ∈ dom (events (mem s)) →
  a ∉ eventPool (mem s) →
  let r := newEvent gonanoid timeNow pick L msg c s in
  r.1 ≠ Some a
  ∧ load (mem r.2) a = load (mem s) a
  ∧ (∀ x, x ∈ dom (maps (mem s)) → maps (mem r.2) !!! x = maps (mem s) !!! x)
  ∧ (a ∉ eventPool (mem r.2))
  ∧ clients r.2 = clients s.
Proof.
  intros Hdom Hpool. cbn zeta. destruct c as [ca|]; [|done].
  destruct (Z.lt_ge_cases L (Client.level (clients s !!! ca))) as [Hlt|Hge].
  { by rewrite newEvent_reject. }
  rewrite newEvent_accept by done. cbn [fst snd mem set_mem clients].
  destruct (newEvent_mem_spec gonanoid timeNow pick L msg ca (mem s))
    as (He & _ & Hmaps & _ & _ & _ & Hother).
  assert ((newEvent_mem gonanoid timeNow pick L msg ca (mem s)).1 ≠ a) as Hne.
  { rewrite He. intros Heq.
    destruct (poolGet_cases pick (mem s)) as [(i & _ & Hi & _)|[Hfresh _]].
    - apply Hpool. rewrite <-Heq. by eapply list_elem_of_lookup_2.
    - apply Hfresh. by rewrite Heq. }
  split_and!.
  - congruence.
  - by apply Hother.
  - intros x Hx. rewrite Hmaps. apply lookup_total_insert_ne.
    intros <-. by apply (is_fresh (dom (maps (mem s)))).
  - rewrite newEvent_mem_pool. intros Hin. by apply poolGet_pool_elem in Hin.
  - done.
Qed.

(** X15: a child of a parent that has not been released is an event of its own:
    it has the parent's client and the parent's id as [parentID], the level
    and message of the call, and otherwise the state of a new event (open,
    no topic, an empty field map of its own); the parent is not changed. *)
Theorem newChildEvent_child_record pick L msg a ca s :
  Event.c (load (mem s) a) = Some ca →
  Client.level (clients s !!! ca) ≤ L →
  a ∈ dom (events (mem s)) →
  a ∉ eventPool (mem s) →
  let r := newChildEvent gonanoid timeNow pick L msg (Some a) s in
  ∃ ch fs,
    r.1 = Some ch
    ∧ ch ≠ a
    ∧ load (mem r.2) ch =
        Event.mk (Some ca) false (gonanoid (idCalls (mem s)))
                 (timeNow (nowCalls (mem s))) 0 L msg ""
                 (Event.id (load (mem s) a)) (Some fs)
    ∧ maps (mem r.2) !!! fs = (∅ : Fields)
    ∧ (fs ∉ dom (maps (mem s)))
    ∧ load (mem r.2) a = load (mem s) a.
Proof.
  intros Hc Hle Hdom Hpool. cbn zeta. unfold newChildEvent. rewrite Hc.
  destruct (Z.ltb_spec L (Client.level (clients s !!! ca))) as [Hlt|_]; [lia|].
  rewrite newEvent_accept by done.
  destruct (newEvent_mem_spec gonanoid timeNow pick L msg ca (mem s))
    as (He & Hev & Hmaps & _ & _ & _ & Hother).
  set (ch := (newEvent_mem gonanoid timeNow pick L msg ca (mem s)).1) in *.
  set (m1 := (newEvent_mem gonanoid timeNow pick L msg ca (mem s)).2) in *.
  assert (ch ≠ a) as Hne.
  { rewrite He. intros Heq.
    destruct (poolGet_cases pick (mem s)) as [(i & _ & Hi & _)|[Hfresh _]].
    - apply Hpool. rewrite <-Heq. by eapply list_elem_of_lookup_2.
    - apply Hfresh. by rewrite Heq. }
  cbn [Event_ParentID fst snd mem set_mem].
  exists ch, (fresh (dom (maps (mem s)))). split_and!.
  - done.
  - done.
  - rewrite load_assign, Hev, (Hother a) by done. done.
  - rewrite maps_assign, Hmaps. apply lookup_total_insert_eq.
  - apply is_fresh.
  - rewrite load_assign_ne by done. by apply Hother.
Qed.

(** X16: two creations in a row take two identifiers from the provider: with a
    provider that returns no identifier twice, the second event's id is not
    the one the first was given, and when the two are different instances
    they carry different ids. *)
Theorem successive_events_have_distinct_ids p1 p2 L1 L2 msg1 msg2 c1 c2 s :
  Inj (=) (=) gonanoid →
  Client.level (clients s !!! c1) ≤ L1 →
  Client.level (clients s !!! c2) ≤ L2 →
  ∃ e1 s1 e2 s2,
    newEvent gonanoid timeNow p1 L1 msg1 (Some c1) s = (Some e1, s1)
    ∧ newEvent gonanoid timeNow p2 L2 msg2 (Some c2) s1 = (Some e2, s2)
    ∧ Event.id (load (mem s2) e2) ≠ Event.id (load (mem s1) e1)
    ∧ (e1 ≠ e2 → Event.id (load (mem s2) e2) ≠ Event.id (load (mem s2) e1)).
Proof.
  intros Hinj Hle1 Hle2.
  rewrite (newEvent_accept gonanoid timeNow p1 L1 msg1 c1 s) by done.
  destruct (newEvent_mem_spec gonanoid timeNow p1 L1 msg1 c1 (mem s))
    as (_ & Hev1 & _ & Hid1 & _).
  set (e1 := (newEvent_mem gonanoid timeNow p1 L1 msg1 c1 (mem s)).1) in *.
  set (m1 := (newEvent_mem gonanoid timeNow p1 L1 msg1 c1 (mem s)).2) in *.
  set (s1 := set_mem (λ _, m1) s).
  assert (Client.level (clients s1 !!! c2) ≤ L2) as Hle2' by done.
  destruct (newEvent_mem_spec gonanoid timeNow p2 L2 msg2 c2 (mem s1))
    as (_ & Hev2 & _ & _ & _ & _ & Hother2).
  change (mem s1) with m1 in *.
  set (e2 := (newEvent_mem gonanoid timeNow p2 L2 msg2 c2 m1).1) in *.
  set (m2 := (newEvent_mem gonanoid timeNow p2 L2 msg2 c2 m1).2) in *.
  exists e1, s1, e2, (set_mem (λ _, m2) s1). split; [done|].
  split; [by rewrite (newEvent_accept gonanoid timeNow p2 L2 msg2 c2 s1)|].
  change (mem (set_mem (λ _, m2) s1)) with m2. change (mem s1) with m1.
  rewrite Hev2, Hev1. cbn [Event.id]. rewrite Hid1.
  split.
  - intros Heq%Hinj. lia.
  - intros Hne. rewrite (Hother2 e1) by done. rewrite Hev1. cbn [Event.id].
    intros Heq%Hinj. lia.
Qed.

(** X17: [Evict] does not look at whether the event is in the pool already:
    after an [Emit] without hold it puts the event there a second time, and
    the next two creations can then both be handed that one instance. *)
Theorem Evict_after_Emit_pools_twice a ca L1 L2 msg1 msg2 c1 c2 s :
  Event.closed (load (mem s) a) = false →
  Event.c (load (mem s) a) = Some ca →
  Client.level (clients s !!! c1) ≤ L1 →
  Client.level (clients s !!! c2) ≤ L2 →
  ∃ s1,
    Event_Emit timeNow [] (Some a) s = Some (Some a, s1)
    ∧ let s2 := set_mem (Event_Evict (Some a)) s1 in
      let r1 := newEvent gonanoid timeNow (Some 0%nat) L1 msg1 (Some c1) s2 in
      let r2 := newEvent gonanoid timeNow (Some 0%nat) L2 msg2 (Some c2) r1.2 in
      (∃ rest, eventPool (mem s2) = a :: a :: rest)
      ∧ r1.1 = Some a
      ∧ r2.1 = Some a.
Proof.
  intros Hopen Hc Hle1 Hle2. eexists. split; [by apply Event_Emit_open|].
  cbn zeta. cbn [held].
  set (m' := (dispatch (Client.observers (clients s !!! ca)) 0 a
                (emitStart timeNow a (mem s))).1).
  set (s2 := set_mem (Event_Evict (Some a)) _).
  assert (eventPool (mem s2) = a :: a :: eventPool m') as Hp2 by done.
  assert (clients s2 = clients s) as Hcl by done.
  split; [eauto|].
  rewrite (newEvent_accept gonanoid timeNow (Some 0%nat) L1 msg1 c1 s2)
    by (by rewrite Hcl).
  cbn [fst snd].
  destruct (newEvent_mem_spec gonanoid timeNow (Some 0%nat) L1 msg1 c1 (mem s2))
    as (He1 & _).
  pose proof (newEvent_mem_pool (Some 0%nat) L1 msg1 c1 (mem s2)) as Hp3.
  destruct (poolGet_head a (a :: eventPool m') (mem s2) Hp2) as [Hg1 Hg1p].
  rewrite Hg1 in He1. rewrite Hg1p in Hp3. split; [by rewrite He1|].
  set (s3 := set_mem _ s2) in *.
  assert (clients s3 = clients s) as Hcl3 by done.
  rewrite (newEvent_accept gonanoid timeNow (Some 0%nat) L2 msg2 c2 s3)
    by (by rewrite Hcl3).
  cbn [fst].
  destruct (newEvent_mem_spec gonanoid timeNow (Some 0%nat) L2 msg2 c2 (mem s3))
    as (He2 & _).
  destruct (poolGet_head a (eventPool m') (mem s3) Hp3) as [Hg2 _].
  by rewrite He2, Hg2.
Qed.

End CreationMore.


(** ** Clients *)

(** X18: [WithObserver] appends to the client's list and changes nothing else:
    two calls amount to one call with the two lists joined, the level, the
    other clients and memory stay as they are; on nil it returns nil. *)
Theorem Client_WithObserver_appends o1 o2 ca s :
  let s1 := (Client_WithObserver o1 (Some ca) s).2 in
  (Client_WithObserver o2 (Some ca) s1).2
    = (Client_WithObserver (o1 ++ o2) (Some ca) s).2
  ∧ Client.observers (clients s1 !!! ca) = Client.observers (clients s !!! ca) ++ o1
  ∧ Client.level (clients s1 !!! ca) = Client.level (clients s !!! ca)
  ∧ (∀ c, c ≠ ca → clients s1 !!! c = clients s !!! c)
  ∧ mem s1 = mem s
  ∧ (Client_WithObserver o1 (Some ca) s).1 = Some ca
  ∧ Client_WithObserver o1 None s = (None, s).
Proof.
  cbn zeta. cbn [Client_WithObserver fst snd set_clients clients mem].
  rewrite !lookup_total_insert_eq. cbn [Client.level Client.observers].
  split_and!; try done.
  - unfold set_clients. cbn. by rewrite insert_insert_eq, (assoc_L (++)).
  - intros c Hc. by rewrite lookup_total_insert_ne.
Qed.

Section ClientLevel.

Variable gonanoid : nat → string.
Variable timeNow : nat → Z.

(** X19: after [WithLevel(l)] the client refuses exactly the levels below [l];
    its observers are kept, and of two calls the later one decides. *)
Theorem Client_WithLevel_sets_threshold l l' pick L msg ca s :
  let s1 := (Client_WithLevel l (Some ca) s).2 in
  ((newEvent gonanoid timeNow pick L msg (Some ca) s1).1 = None ↔ L < l)
  ∧ Client.observers (clients s1 !!! ca) = Client.observers (clients s !!! ca)
  ∧ (Client_WithLevel l' (Some ca) s1).2 = (Client_WithLevel l' (Some ca) s).2
  ∧ (∀ c, c ≠ ca → clients s1 !!! c = clients s !!! c)
  ∧ Client_WithLevel l None s = (None, s).
Proof.
  cbn zeta.
  assert (Client.level (clients (Client_WithLevel l (Some ca) s).2 !!! ca) = l)
    as Hl by (cbn; by rewrite lookup_total_insert_eq).
  split_and!.
  - destruct (Z.lt_ge_cases L l) as [Hlt|Hge].
    + rewrite newEvent_reject by (by rewrite Hl). done.
    + rewrite newEvent_accept by (by rewrite Hl). cbn [fst]. split; [done | lia].
  - cbn. by rewrite lookup_total_insert_eq.
  - cbn. rewrite lookup_total_insert_eq. unfold set_clients. cbn.
    by rewrite insert_insert_eq.
  - intros c Hc. cbn. by rewrite lookup_total_insert_ne.
  - done.
Qed.

End ClientLevel.

Lemma New_snoc opts opt s :
  New (opts ++ [opt]) s =
    ((New opts s).1, opt (fresh (dom (clients s))) (New opts s).2).
Proof. unfold New. cbn [fst snd]. by rewrite foldl_app. Qed.

Lemma levelsOf_snoc opts o :
  levelsOf (opts ++ [o]) =
    levelsOf opts ++ match o with OptLevel l => [l] | _ => [] end.
Proof. unfold levelsOf. rewrite omap_app. by destruct o. Qed.

Lemma loggers_app os1 os2 : loggers (os1 ++ os2) = loggers os1 ++ loggers os2.
Proof. apply filter_app. Qed.

Lemma loggers_public os :
  Forall (λ ob, Observer.id ob ≠ "logger") os → loggers os = [].
Proof.
  unfold loggers. induction 1 as [|o os Ho _ IH]; [done|].
  by rewrite filter_cons_False.
Qed.

(** X20: a client built by [New] from the package's options is a new client:
    its address was not in use, the clients that existed and memory are left
    alone, its level is the one of the last [WithLevel] given ([LevelInfo]
    when there is none), and, when the observers registered come from the
    public constructors, it has at most one observer with id ["logger"]. *)
Theorem New_standard_options opts s :
  Forall publicObservers opts →
  let r := New (option_of <$> opts) s in
  ∃ c,
    r.1 = Some c
    ∧ (c ∉ dom (clients s))
    ∧ (∀ c', c' ≠ c → clients r.2 !!! c' = clients s !!! c')
    ∧ mem r.2 = mem s
    ∧ Client.level (clients r.2 !!! c) = default LevelInfo (last (levelsOf opts))
    ∧ (length (loggers (Client.observers (clients r.2 !!! c))) ≤ 1)%nat.
Proof.
  intros Hpub. cbn zeta. exists (fresh (dom (clients s))).
  split; [done|]. split; [apply is_fresh|].
  induction opts as [|o opts IH] using rev_ind.
  - cbn. split_and!; try done.
    + intros c' Hc'. by rewrite lookup_total_insert_ne.
    + by rewrite lookup_total_insert_eq.
    + rewrite lookup_total_insert_eq. cbn. lia.
  - rewrite Forall_app, Forall_singleton in Hpub. destruct Hpub as [Hpub Ho].
    destruct (IH Hpub) as (Hother & Hmem & Hlevel & Hone). clear IH.
    rewrite fmap_app. cbn [fmap list_fmap]. rewrite New_snoc. cbn [snd].
    set (s1 := (New (option_of <$> opts) s).2) in *.
    set (c := fresh (dom (clients s))) in *.
    rewrite levelsOf_snoc. destruct o as [l|os|]; cbn [option_of].
    + unfold WithLevel. cbn. rewrite lookup_total_insert_eq. cbn.
      rewrite last_snoc. split_and!; try done.
      intros c' Hc'. rewrite lookup_total_insert_ne by done. by apply Hother.
    + unfold WithObserver. cbn. rewrite lookup_total_insert_eq. cbn.
      rewrite (right_id_L [] (++)). split_and!; try done.
      * intros c' Hc'. rewrite lookup_total_insert_ne by done. by apply Hother.
      * rewrite loggers_app, (loggers_public os Ho), (right_id_L [] (++)). done.
    + unfold WithStandardLogger. rewrite (right_id_L [] (++)).
      destruct (loggers (Client.observers (clients s1 !!! c))) as [|lo ls] eqn:Hl.
      * destruct (WithStandardLogger_absent c s1 Hl) as (_ & Hobs & Hlev & Hm & _).
        rewrite Hobs, Hlev, Hm. split_and!; try done.
        -- intros c' Hc'. unfold Client_WithStandardLogger.
           destruct (negb _); [|by apply Hother]. cbn.
           rewrite lookup_total_insert_ne by done. by apply Hother.
        -- rewrite loggers_app, Hl. cbn. done.
      * rewrite WithStandardLogger_present by (by rewrite Hl). cbn [snd].
        split_and!; try done. by rewrite Hl.
Qed.

(** ** Instances of the further statements *)

Lemma Emit_hold_then_Evict_witness :
  Event.closed (load (mem stateOpenEvent) 0%nat) = false
  ∧ Event.c (load (mem stateOpenEvent) 0%nat) = Some 0%nat
  ∧ ∃ s1,
      Event_Emit exampleNow [true] (Some 0%nat) stateOpenEvent
        = Some (Some 0%nat, s1)
      ∧ Event_Emit exampleNow [] (Some 0%nat) stateOpenEvent
        = Some (Some 0%nat, set_mem (Event_Evict (Some 0%nat)) s1).
Proof.
  assert (Event.closed (load (mem stateOpenEvent) 0%nat) = false) as Hopen
    by reflexivity.
  assert (Event.c (load (mem stateOpenEvent) 0%nat) = Some 0%nat) as Hc
    by reflexivity.
  split; [exact Hopen|]. split; [exact Hc|].
  destruct (Emit_hold_then_Evict exampleNow 0%nat 0%nat stateOpenEvent Hopen Hc)
    as (s1 & Hheld & _ & Hfree).
  exists s1. split; [exact Hheld | exact Hfree].
Defined.

Lemma Emit_stamps_and_closes_witness :
  Event.closed (load (mem stateDefaultEvent) 0%nat) = false
  ∧ Event.c (load (mem stateDefaultEvent) 0%nat) = Some 0%nat
  ∧ ∃ s',
      Event_Emit exampleNow [] (Some 0%nat) stateDefaultEvent
        = Some (Some 0%nat, s')
      ∧ Event.closed (load (mem s') 0%nat) = true
      ∧ Event.message (load (mem s') 0%nat) = "started".
Proof.
  assert (Event.closed (load (mem stateDefaultEvent) 0%nat) = false) as Hopen
    by reflexivity.
  assert (Event.c (load (mem stateDefaultEvent) 0%nat) = Some 0%nat) as Hc
    by reflexivity.
  assert (∀ o m, o ∈ Client.observers (clients stateDefaultEvent !!! 0%nat) →
            load (Observer.handler o 0%nat m) 0%nat = load m 0%nat) as Hframe.
  { intros o m.
    change (Client.observers (clients stateDefaultEvent !!! 0%nat))
      with [loggerObserver].
    rewrite list_elem_of_singleton. intros ->. apply load_loggerHandler. }
  split; [exact Hopen|]. split; [exact Hc|].
  destruct (Emit_stamps_and_closes exampleNow [] 0%nat 0%nat stateDefaultEvent
              Hopen Hc Hframe) as (s' & Hemit & Hload & _).
  exists s'. split; [exact Hemit|]. rewrite Hload. split; reflexivity.
Defined.

Lemma filtered_creation_chain_is_noop_witness :
  LevelDebug < Client.level (clients stateTwoObservers !!! 0%nat)
  ∧ chain [CallTopic "db"; CallField "rows" (AnyInt 3)]
          (newEvent exampleId exampleNow None LevelDebug "query" (Some 0%nat)
             stateTwoObservers).1
          (mem (newEvent exampleId exampleNow None LevelDebug "query"
                  (Some 0%nat) stateTwoObservers).2)
    = (None, mem stateTwoObservers).
Proof.
  assert (LevelDebug < Client.level (clients stateTwoObservers !!! 0%nat))
    as Hlt by (vm_compute; reflexivity).
  split; [exact Hlt|].
  destruct (filtered_creation_chain_is_noop exampleId exampleNow None LevelDebug
              "query" 0%nat [CallTopic "db"; CallField "rows" (AnyInt 3)] []
              stateTwoObservers Hlt) as (_ & H & _).
  exact H.
Defined.

Lemma chain_keeps_identity_witness :
  let m := (chain [CallTopic "db"; CallField "rows" (AnyInt 3); CallLevel LevelWarn]
                  (Some 0%nat) (mem stateOpenEvent)).2 in
  (1 ≠ 0)%nat
  ∧ load m 1%nat = load (mem stateOpenEvent) 1%nat
  ∧ Event.id (load m 0%nat) = Event.id (load (mem stateOpenEvent) 0%nat).
Proof.
  intros m. assert (1 ≠ 0)%nat as Hne by discriminate.
  split; [exact Hne|].
  destruct (chain_keeps_identity
              [CallTopic "db"; CallField "rows" (AnyInt 3); CallLevel LevelWarn]
              0%nat (mem stateOpenEvent))
    as (_ & Hid & _ & _ & _ & _ & Hother & _).
  split; [exact (Hother 1%nat Hne) | exact Hid].
Defined.

Lemma newEvent_spares_live_events_witness :
  let r := newEvent exampleId exampleNow (Some 0%nat) LevelWarn "next"
                    (Some 0%nat) stateOpenEvent in
  0%nat ∈ dom (events (mem stateOpenEvent))
  ∧ (0%nat ∉ eventPool (mem stateOpenEvent))
  ∧ r.1 ≠ Some 0%nat
  ∧ load (mem r.2) 0%nat = load (mem stateOpenEvent) 0%nat.
Proof.
  intros r.
  assert (0%nat ∈ dom (events (mem stateOpenEvent))) as Hdom by (by vm_compute).
  assert (0%nat ∉ eventPool (mem stateOpenEvent)) as Hpool
    by (vm_compute; apply not_elem_of_nil).
  split; [exact Hdom|]. split; [exact Hpool|].
  destruct (newEvent_spares_live_events exampleId exampleNow (Some 0%nat)
              LevelWarn "next" (Some 0%nat) stateOpenEvent 0%nat Hdom Hpool)
    as (Hne & Hload & _).
  split; [exact Hne | exact Hload].
Defined.

Lemma newChildEvent_child_record_witness :
  let r := newChildEvent exampleId exampleNow None LevelFatal "child"
                         (Some 0%nat) stateOpenEvent in
  Event.c (load (mem stateOpenEvent) 0%nat) = Some 0%nat
  ∧ Client.level (clients stateOpenEvent !!! 0%nat) ≤ LevelFatal
  ∧ ∃ ch,
      r.1 = Some ch
      ∧ Event.parentID (load (mem r.2) ch) = "0"
      ∧ Event.topic (load (mem r.2) ch) = ""
      ∧ mapOf (mem r.2) (Event.fields (load (mem r.2) ch)) = ∅
      ∧ load (mem r.2) 0%nat = load (mem stateOpenEvent) 0%nat.
Proof.
  intros r.
  assert (Event.c (load (mem stateOpenEvent) 0%nat) = Some 0%nat) as Hc
    by reflexivity.
  assert (Client.level (clients stateOpenEvent !!! 0%nat) ≤ LevelFatal) as Hle
    by (vm_compute; discriminate).
  assert (0%nat ∈ dom (events (mem stateOpenEvent))) as Hdom by (by vm_compute).
  assert (0%nat ∉ eventPool (mem stateOpenEvent)) as Hpool
    by (vm_compute; apply not_elem_of_nil).
  split; [exact Hc|]. split; [exact Hle|].
  destruct (newChildEvent_child_record exampleId exampleNow None LevelFatal
              "child" 0%nat 0%nat stateOpenEvent Hc Hle Hdom Hpool)
    as (ch & fs & Hch & _ & Hrec & Hfs & _ & Hparent).
  exists ch. split; [exact Hch|]. fold r in Hrec, Hfs, Hparent.
  rewrite Hrec. cbn [Event.parentID Event.topic Event.fields mapOf].
  split; [reflexivity|]. split; [reflexivity|]. split; [exact Hfs | exact Hparent].
Defined.

Lemma successive_events_have_distinct_ids_witness :
  Client.level (clients stateTwoObservers !!! 0%nat) ≤ LevelInfo
  ∧ ∃ e1 s1 e2 s2,
      newEvent exampleId exampleNow None LevelInfo "one" (Some 0%nat)
               stateTwoObservers = (Some e1, s1)
      ∧ newEvent exampleId exampleNow None LevelInfo "two" (Some 0%nat) s1
        = (Some e2, s2)
      ∧ Event.id (load (mem s2) e2) ≠ Event.id (load (mem s1) e1).
Proof.
  assert (Client.level (clients stateTwoObservers !!! 0%nat) ≤ LevelInfo) as Hle
    by (vm_compute; discriminate).
  split; [exact Hle|].
  destruct (successive_events_have_distinct_ids exampleId exampleNow None None
              LevelInfo LevelInfo "one" "two" 0%nat 0%nat stateTwoObservers
              pretty_nat_inj Hle Hle)
    as (e1 & s1 & e2 & s2 & H1 & H2 & Hne & _).
  exists e1, s1, e2, s2. split; [exact H1|]. split; [exact H2 | exact Hne].
Defined.

Lemma Evict_after_Emit_pools_twice_witness :
  Event.closed (load (mem stateOpenEvent) 0%nat) = false
  ∧ Event.c (load (mem stateOpenEvent) 0%nat) = Some 0%nat
  ∧ Client.level (clients stateOpenEvent !!! 0%nat) ≤ LevelInfo
  ∧ ∃ s1,
      Event_Emit exampleNow [] (Some 0%nat) stateOpenEvent = Some (Some 0%nat, s1)
      ∧ let s2 := set_mem (Event_Evict (Some 0%nat)) s1 in
        let r1 := newEvent exampleId exampleNow (Some 0%nat) LevelInfo "one"
                           (Some 0%nat) s2 in
        let r2 := newEvent exampleId exampleNow (Some 0%nat) LevelInfo "two"
                           (Some 0%nat) r1.2 in
        r1.1 = Some 0%nat ∧ r2.1 = Some 0%nat.
Proof.
  assert (Event.closed (load (mem stateOpenEvent) 0%nat) = false) as Hopen
    by reflexivity.
  assert (Event.c (load (mem stateOpenEvent) 0%nat) = Some 0%nat) as Hc
    by reflexivity.
  assert (Client.level (clients stateOpenEvent !!! 0%nat) ≤ LevelInfo) as Hle
    by (vm_compute; discriminate).
  split; [exact Hopen|]. split; [exact Hc|]. split; [exact Hle|].
  destruct (Evict_after_Emit_pools_twice exampleId exampleNow 0%nat 0%nat
              LevelInfo LevelInfo "one" "two" 0%nat 0%nat stateOpenEvent
              Hopen Hc Hle Hle) as (s1 & Hemit & _ & H1 & H2).
  exists s1. split; [exact Hemit|]. split; [exact H1 | exact H2].
Defined.

Lemma Client_WithObserver_appends_witness :
  (1 ≠ 0)%nat
  ∧ clients (Client_WithObserver [WildcardObserver retag] (Some 0%nat)
               stateTwoObservers).2 !!! 1%nat
    = clients stateTwoObservers !!! 1%nat.
Proof.
  assert (1 ≠ 0)%nat as Hne by discriminate. split; [exact Hne|].
  destruct (Client_WithObserver_appends [WildcardObserver retag] [] 0%nat
              stateTwoObservers) as (_ & _ & _ & H & _).
  exact (H 1%nat Hne).
Defined.

Lemma Client_WithLevel_sets_threshold_witness :
  (1 ≠ 0)%nat
  ∧ clients (Client_WithLevel LevelError (Some 0%nat) stateTwoObservers).2 !!! 1%nat
    = clients stateTwoObservers !!! 1%nat.
Proof.
  assert (1 ≠ 0)%nat as Hne by discriminate. split; [exact Hne|].
  destruct (Client_WithLevel_sets_threshold exampleId exampleNow LevelError
              LevelWarn None LevelInfo "m" 0%nat stateTwoObservers)
    as (_ & _ & _ & H & _).
  exact (H 1%nat Hne).
Defined.

Lemma New_standard_options_witness :
  let opts := [OptObserver [WildcardObserver retag]; OptStandardLogger;
               OptLevel LevelDebug; OptStandardLogger] in
  Forall publicObservers opts
  ∧ ∃ c,
      (New (option_of <$> opts) emptyState).1 = Some c
      ∧ Client.level (clients (New (option_of <$> opts) emptyState).2 !!! c)
        = LevelDebug.
Proof.
  intros opts.
  assert (Forall publicObservers opts) as Hpub.
  { repeat constructor. cbn. discriminate. }
  split; [exact Hpub|].
  destruct (New_standard_options opts emptyState Hpub)
    as (c & Hc & _ & _ & _ & Hlevel & _).
  exists c. split; [exact Hc | exact Hlevel].
Defined.


(** ** What a chain builds *)

Lemma chain_snoc bs b e m :
  chain (bs ++ [b]) e m = call b (chain bs e m).1 (chain bs e m).2.
Proof. unfold chain. by rewrite foldl_app. Qed.

Lemma snapshot_assign a upd m :
  Event.fields (upd (load m a)) = Event.fields (load m a) →
  snapshot (assign a upd m) a =
    (Event.level (upd (load m a)), Event.message (upd (load m a)),
     Event.topic (upd (load m a)), Event.parentID (upd (load m a)),
     mapOf m (Event.fields (load m a))).
Proof.
  intros Hf. unfold snapshot. rewrite load_assign, Hf.
  by destruct (Event.fields (load m a)).
Qed.

Lemma snapshot_Fields F a m :
  snapshot (Event_Fields F (Some a) m).2 a =
    (Event.level (load m a), Event.message (load m a), Event.topic (load m a),
     Event.parentID (load m a), F ∪ mapOf m (Event.fields (load m a))).
Proof.
  unfold snapshot. rewrite Event_Fields_new.
  destruct (Event_Fields_mem F a m) as (_ & Hev & _).
  by rewrite (load_insert_events _ _ _ _ _ Hev), decide_True by done.
Qed.

Lemma snapshot_call b a m :
  snapshot (call b (Some a) m).2 a = step (snapshot m a) b.
Proof.
  destruct b as [l|msg|t|p|F|k v|err];
    cbn [call Event_Level Event_Message Event_Topic Event_ParentID
         Event_Field Event_WithError snd].
  - by rewrite snapshot_assign.
  - by rewrite snapshot_assign.
  - by rewrite snapshot_assign.
  - by rewrite snapshot_assign.
  - by rewrite snapshot_Fields.
  - rewrite snapshot_Fields. unfold snapshot, step.
    by rewrite insert_union_singleton_l.
  - rewrite snapshot_Fields. unfold snapshot, step.
    by rewrite insert_union_singleton_l.
Qed.

(** X21: the values an event holds after a chain of builder calls are those of
    the calls made on the values one after the other: each scalar is that of
    the last call that set it, and the fields are the merges in call order.
    This holds for a closed event as well: the builders do not look at
    [closed]. *)
Theorem chain_builds_values bs a m :
  snapshot (chain bs (Some a) m).2 a = foldl step (snapshot m a) bs.
Proof.
  induction bs as [|b bs IH] using rev_ind; [done|].
  rewrite chain_snoc, foldl_app. cbn [foldl]. rewrite <-IH.
  assert ((chain bs (Some a) m).1 = Some a) as ->.
  { clear IH. revert m. induction bs as [|b' bs IH]; intros m; [done|].
    rewrite chain_cons. destruct (call_frame b' a m) as [-> _]. apply IH. }
  apply snapshot_call.
Qed.


(** C2 (the claim as stated fails): with a handler that releases the event
    and has the pool hand it back to a creation, the first [Emit] leaves the
    event open, and the second [Emit] runs the observers again: two passes,
    not one. *)
Lemma Emit_twice_with_reopening_handler :
  Event.closed (load (mem stateReopeningEvent) 0%nat) = false
  ∧ Event.c (load (mem stateReopeningEvent) 0%nat) = Some 0%nat
  ∧ fst <$> Event_Emit exampleNow [] (Some 0%nat) stateReopeningEvent
    = Some (Some 0%nat)
  ∧ fired stateReopeningEvent = []
  ∧ fired stateReopenedOnce = [(0%nat, 0%nat)]
  ∧ Event.closed (load (mem stateReopenedOnce) 0%nat) = false
  ∧ (λ r, (r.1, fired r.2))
      <$> Event_Emit exampleNow [] (Some 0%nat) stateReopenedOnce
    = Some (Some 0%nat, [(0%nat, 0%nat); (0%nat, 0%nat)])
  ∧ Event_Emit exampleNow [] (Some 0%nat) stateReopenedOnce
    ≠ Some (Some 0%nat, stateReopenedOnce).
Proof.
  assert ((λ r, (r.1, fired r.2))
            <$> Event_Emit exampleNow [] (Some 0%nat) stateReopenedOnce
          = Some (Some 0%nat, [(0%nat, 0%nat); (0%nat, 0%nat)])) as Hsecond
    by (vm_compute; reflexivity).
  split_and!; [vm_compute; reflexivity .. | exact Hsecond |].
  intros Heq.
  pose proof (eq_trans (eq_sym Hsecond)
                (f_equal (fmap (λ r : option nat * State, (r.1, fired r.2))) Heq))
    as Hboth.
  vm_compute in Hboth. discriminate Hboth.
Qed.

Lemma Emit_guards_and_nil_client_witness :
  Event.closed (load (mem stateZeroEvent) 0%nat) = false
  ∧ Event.c (load (mem stateZeroEvent) 0%nat) = None
  ∧ Event_Emit exampleNow [] (Some 0%nat) stateZeroEvent = None.
Proof.
  assert (Event.closed (load (mem stateZeroEvent) 0%nat) = false) as Hopen
    by reflexivity.
  assert (Event.c (load (mem stateZeroEvent) 0%nat) = None) as Hc
    by reflexivity.
  split; [exact Hopen|]. split; [exact Hc|].
  destruct (Emit_guards_and_nil_client exampleNow [] (Some 0%nat) stateZeroEvent)
    as (_ & _ & H).
  exact (H 0%nat eq_refl Hopen Hc).
Defined.
